(** * A deterministic single-tape Turing machine simulator

    Shallow embedding of [turing_simulator.py] (class [TuringMachine]):
    the specification validator [verify_specification], the execution
    loop [run], the configuration printer [get_configuration], the
    loader [load_from_file] with [parse_transition] and the writer
    [save_output], followed by their properties. *)

From Stdlib Require Import ZArith Ascii.
From stdpp Require Import gmap strings list.

Local Open Scope Z_scope.

(** ** Python strings

    A Python [str] is a sequence of Unicode code points.  A code point is
    a number, a string is a list of them; [list(s)] yields the
    one-character strings of [s] and [''.join] is concatenation. *)

Abbreviation str := (list N).

(** Literals are written as UTF-8 text and decoded to code points. *)
Fixpoint utf8_go (pending : nat) (acc : N) (bs : list N) : str :=
  match bs with
  | [] => []
  | b :: rest =>
      match pending with
      | O =>
          if (b <? 128)%N then b :: utf8_go 0 0%N rest
          else if (b <? 224)%N then utf8_go 1 (b mod 32)%N rest
          else if (b <? 240)%N then utf8_go 2 (b mod 16)%N rest
          else utf8_go 3 (b mod 8)%N rest
      | S p =>
          let acc' := (acc * 64 + b mod 64)%N in
          match p with
          | O => acc' :: utf8_go 0 0%N rest
          | S _ => utf8_go p acc' rest
          end
      end
  end.

Definition py (s : string) : str :=
  utf8_go 0 0%N (map N_of_ascii (String.list_ascii_of_string s)).

(** [list(input_string)] *)
Definition py_list (s : str) : list str := map (fun c => [c]) s.

(** [''.join(cells)] *)
Definition join (cells : list str) : str := concat cells.

(** [f"{state}"]: an unset attribute is [None] and prints as such. *)
Definition fmt (state : option str) : str :=
  match state with
  | Some q => q
  | None => py "None"
  end.

(** Normalisation of a (possibly negative) slice bound against a list of
    length [n], as in [tape[:head]] and [tape[head:]]. *)
Definition slice_bound (n : nat) (i : Z) : nat :=
  if i <? 0 then Z.to_nat (Z.max (Z.of_nat n + i) 0)
  else Z.to_nat (Z.min i (Z.of_nat n)).

Definition slice_to {A} (l : list A) (i : Z) : list A :=
  take (slice_bound (length l) i) l.

Definition slice_from {A} (l : list A) (i : Z) : list A :=
  drop (slice_bound (length l) i) l.

(** Subscripting [l[i]]: negative indices count from the end, anything
    outside [-len, len) raises [IndexError] (here [None]). *)
Definition py_index (n : nat) (i : Z) : option nat :=
  if (0 <=? i) && (i <? Z.of_nat n) then Some (Z.to_nat i)
  else if (i <? 0) && (- Z.of_nat n <=? i) then Some (Z.to_nat (Z.of_nat n + i))
  else None.

Definition getitem {A} (l : list A) (i : Z) : option A :=
  match py_index (length l) i with
  | Some k => l !! k
  | None => None
  end.

Definition setitem {A} (l : list A) (i : Z) (x : A) : option (list A) :=
  match py_index (length l) i with
  | Some k => Some (<[k:=x]> l)
  | None => None
  end.

(** ** The machine *)

(** [self.blank = '⊔'] (U+2294), set once by the constructor. *)
Definition blank : str := [8852%N].

(** [delta] is a dict: insertion ordered, one value per key. *)
Abbreviation transition := ((str * str) * (str * str * str))%type.

Record TuringMachine := {
  Q : gset str;
  Sigma : gset str;
  Gamma : gset str;
  delta : list transition;
  q0 : option str;
  qaccept : option str;
  qreject : option str
}.

(** [key in d] / [d[key]] *)
Fixpoint dict_get {K V} `{EqDecision K} (k : K) (d : list (K * V)) : option V :=
  match d with
  | [] => None
  | (k', v) :: rest => if decide (k = k') then Some v else dict_get k rest
  end.

(** [q in self.Q] for an attribute that may still be [None]. *)
Definition mem (q : option str) (S : gset str) : bool :=
  match q with
  | Some s => bool_decide (s ∈ S)
  | None => false
  end.

(** ** The validator: [verify_specification] *)

(** One constructor per message of the source; the two state checks of
    a transition share a message, and so do its two symbol checks. *)
Inductive error :=
  | EmptyQ
  | EmptySigma
  | EmptyGamma
  | BlankNotInGamma
  | SigmaNotSubset
  | BlankInSigma
  | InitialNotInQ (q : option str)
  | AcceptNotInQ (q : option str)
  | RejectNotInQ (q : option str)
  | AcceptEqReject
  | DeltaState (q : str)
  | DeltaSymbol (a : str)
  | DeltaDirection (d : str).

Definition message (e : error) : str :=
  match e with
  | EmptyQ => py "Conjunto de estados Q está vacío"
  | EmptySigma => py "Alfabeto de entrada Σ está vacío"
  | EmptyGamma => py "Alfabeto de cinta Γ está vacío"
  | BlankNotInGamma => py "Símbolo blanco " ++ blank ++ py " no está en Γ"
  | SigmaNotSubset => py "Σ no es subconjunto de Γ"
  | BlankInSigma => py "Símbolo blanco no puede estar en Σ"
  | InitialNotInQ q => py "Estado inicial " ++ fmt q ++ py " no está en Q"
  | AcceptNotInQ q => py "Estado de aceptación " ++ fmt q ++ py " no está en Q"
  | RejectNotInQ q => py "Estado de rechazo " ++ fmt q ++ py " no está en Q"
  | AcceptEqReject => py "Estado de aceptación y rechazo no pueden ser iguales"
  | DeltaState q => py "Estado " ++ q ++ py " en δ no está en Q"
  | DeltaSymbol a => py "Símbolo " ++ a ++ py " en δ no está en Γ"
  | DeltaDirection d => py "Dirección " ++ d ++ py " debe ser L o R"
  end.

(** [if c: errors.append(e)] *)
Definition when (c : bool) (e : error) : list error := if c then [e] else [].

Definition is_direction (d : str) : bool :=
  bool_decide (d = py "L") || bool_decide (d = py "R").

(** The body of the loop over [self.delta.items()]. *)
Definition check_transition (M : TuringMachine) (t : transition) : list error :=
  let '((state, symbol), (new_state, new_symbol, direction)) := t in
  when (negb (bool_decide (state ∈ Q M))) (DeltaState state)
  ++ when (negb (bool_decide (symbol ∈ Gamma M))) (DeltaSymbol symbol)
  ++ when (negb (bool_decide (new_state ∈ Q M))) (DeltaState new_state)
  ++ when (negb (bool_decide (new_symbol ∈ Gamma M))) (DeltaSymbol new_symbol)
  ++ when (negb (is_direction direction)) (DeltaDirection direction).

Definition verify_errors (M : TuringMachine) : list error :=
  when (bool_decide (Q M = ∅)) EmptyQ
  ++ when (bool_decide (Sigma M = ∅)) EmptySigma
  ++ when (bool_decide (Gamma M = ∅)) EmptyGamma
  ++ when (negb (bool_decide (blank ∈ Gamma M))) BlankNotInGamma
  ++ when (negb (bool_decide (Sigma M ⊆ Gamma M))) SigmaNotSubset
  ++ when (bool_decide (blank ∈ Sigma M)) BlankInSigma
  ++ when (negb (mem (q0 M) (Q M))) (InitialNotInQ (q0 M))
  ++ when (negb (mem (qaccept M) (Q M))) (AcceptNotInQ (qaccept M))
  ++ when (negb (mem (qreject M) (Q M))) (RejectNotInQ (qreject M))
  ++ when (bool_decide (qaccept M = qreject M)) AcceptEqReject
  ++ flat_map (check_transition M) (delta M).

Definition verify_specification (M : TuringMachine) : list str :=
  message <$> verify_errors M.

(** The seven consistency conditions, as the specification numbers them. *)
Definition transition_ok (M : TuringMachine) (t : transition) : bool :=
  let '((state, symbol), (new_state, new_symbol, direction)) := t in
  bool_decide (state ∈ Q M) && bool_decide (symbol ∈ Gamma M)
  && bool_decide (new_state ∈ Q M) && bool_decide (new_symbol ∈ Gamma M)
  && is_direction direction.

Definition condition (k : nat) (M : TuringMachine) : bool :=
  match k with
  | 1%nat => negb (bool_decide (Q M = ∅)) && negb (bool_decide (Sigma M = ∅))
             && negb (bool_decide (Gamma M = ∅))
  | 2%nat => bool_decide (blank ∈ Gamma M)
  | 3%nat => bool_decide (Sigma M ⊆ Gamma M)
  | 4%nat => negb (bool_decide (blank ∈ Sigma M))
  | 5%nat => mem (q0 M) (Q M) && mem (qaccept M) (Q M) && mem (qreject M) (Q M)
  | 6%nat => negb (bool_decide (qaccept M = qreject M))
  | 7%nat => forallb (transition_ok M) (delta M)
  | _ => true
  end.

(** The five fields of a transition entry next to the error reported
    for each: whether the field is as condition 7 wants it, and the
    error otherwise. *)
Definition transition_fields (M : TuringMachine) (t : transition)
  : list (bool * error) :=
  let '((state, symbol), (new_state, new_symbol, direction)) := t in
  [ (bool_decide (state ∈ Q M), DeltaState state);
    (bool_decide (symbol ∈ Gamma M), DeltaSymbol symbol);
    (bool_decide (new_state ∈ Q M), DeltaState new_state);
    (bool_decide (new_symbol ∈ Gamma M), DeltaSymbol new_symbol);
    (is_direction direction, DeltaDirection direction) ].

(** The errors of the offending fields of an entry, one per field. *)
Definition offending (M : TuringMachine) (t : transition) : list error :=
  snd <$> List.filter (fun field => negb (fst field)) (transition_fields M t).

(** The condition an error message reports on. *)
Definition category (e : error) : nat :=
  match e with
  | EmptyQ | EmptySigma | EmptyGamma => 1
  | BlankNotInGamma => 2
  | SigmaNotSubset => 3
  | BlankInSigma => 4
  | InitialNotInQ _ | AcceptNotInQ _ | RejectNotInQ _ => 5
  | AcceptEqReject => 6
  | DeltaState _ | DeltaSymbol _ | DeltaDirection _ => 7
  end%nat.

Definition valid (M : TuringMachine) : Prop := verify_specification M = [].

(** ** Configurations: [get_configuration] *)

(** [while len(tape) > 1 and tape[-1] == self.blank: tape.pop()];
    at most [len(tape)] iterations. *)
Fixpoint pop_blanks (n : nat) (tape : list str) : list str :=
  match n with
  | O => tape
  | S n' =>
      if (1 <? length tape)%nat && bool_decide (last tape = Some blank)
      then pop_blanks n' (removelast tape)
      else tape
  end.

Definition trim (tape : list str) : list str := pop_blanks (length tape) tape.

(** [if not tape: tape = [self.blank]] *)
Definition shown (popped : list str) : list str :=
  if bool_decide (popped = []) then [blank] else popped.

(** [''.join(tape[:head])] *)
Definition left_part (tape : list str) (head : Z) : str :=
  join (slice_to tape head).

(** [''.join(tape[head:])], replaced by the blank when empty. *)
Definition right_part (tape : list str) (head : Z) : str :=
  let right_part := join (slice_from tape head) in
  if bool_decide (right_part = []) then blank else right_part.

(** The [pop]s act on the list object passed in, so the function is
    modelled with the final contents of that object next to its return
    value; [tape = [self.blank]] only rebinds the local name. *)
Definition get_configuration (tape : list str) (state : option str) (head : Z)
  : list str * str :=
  let popped := trim tape in
  let tape := shown popped in
  (popped, left_part tape head ++ fmt state ++ right_part tape head).

(** ** The execution engine: [run] *)

Inductive Result := StepLimit | Accepted | Rejected | Unknown.

Definition result_text (r : Result) : str :=
  match r with
  | StepLimit => py "CICLO INFINITO (límite de pasos alcanzado)"
  | Accepted => py "ACEPTADA"
  | Rejected => py "RECHAZADA"
  | Unknown => py "DESCONOCIDO"
  end.

(** The local variables of [run]. *)
Record RunState := {
  tape : list str;
  state : option str;
  head : Z;
  step : Z;
  configurations : list str
}.

(** What a piece of the engine can do: return, raise [IndexError], or
    (for the bounded unrolling of the loop only) need more unrolling. *)
Inductive outcome (A : Type) :=
  | Ok (a : A)
  | IndexError
  | OutOfFuel.
Arguments Ok {A} a.
Arguments IndexError {A}.
Arguments OutOfFuel {A}.

(** How one pass through the loop body ends. *)
Inductive control := Continue (r : RunState) | Break (r : RunState).

(** [config = self.get_configuration(tape[:], state, head);
     configurations.append(config)].  The argument is a fresh copy of
    the tape, so what the call pops is dropped with it. *)
Definition capture (tape : list str) (state : option str) (head : Z)
    (configurations : list str) : list str :=
  let '(_, config) := get_configuration tape state head in
  configurations ++ [config].

(** The two [if]s that open the loop body. *)
Definition extend (tape : list str) (head : Z) : list str * Z :=
  let '(tape, head) := if head <? 0 then (blank :: tape, 0) else (tape, head) in
  let tape := if head >=? Z.of_nat (length tape) then tape ++ [blank] else tape in
  (tape, head).

(** [(state, current_symbol) in self.delta]; no key has state [None]. *)
Definition lookup_delta (M : TuringMachine) (state : option str) (symbol : str)
  : option (str * str * str) :=
  match state with
  | Some q => dict_get (q, symbol) (delta M)
  | None => None
  end.

(** [if direction == 'R': ... elif direction == 'L': ...] *)
Definition move (tape : list str) (head : Z) (direction : str) : list str * Z :=
  if bool_decide (direction = py "R") then (tape, head + 1)
  else if bool_decide (direction = py "L") then
    let head := head - 1 in
    if head <? 0 then (blank :: tape, 0) else (tape, head)
  else (tape, head).

Definition terminal (M : TuringMachine) (state : option str) : bool :=
  bool_decide (state = qaccept M) || bool_decide (state = qreject M).

(** [step < 100 or step % 100 == 0 or state in [self.qaccept, self.qreject]] *)
Definition sampled (M : TuringMachine) (step : Z) (state : option str) : bool :=
  (step <? 100) || (step mod 100 =? 0) || terminal M state.

(** One pass through the body of the [while]. *)
Definition iteration (M : TuringMachine) (r : RunState) : outcome control :=
  let '(tape, head) := extend (tape r) (head r) in
  match getitem tape head with
  | None => IndexError
  | Some current_symbol =>
      match lookup_delta M (state r) current_symbol with
      | None =>
          let state := qreject M in
          Ok (Break {| tape := tape; state := state; head := head; step := step r;
                       configurations := capture tape state head (configurations r) |})
      | Some (new_state, new_symbol, direction) =>
          match setitem tape head new_symbol with
          | None => IndexError
          | Some tape =>
              let '(tape, head) := move tape head direction in
              let state := Some new_state in
              let step := step r + 1 in
              let configurations :=
                if sampled M step state
                then capture tape state head (configurations r)
                else configurations r in
              Ok (Continue {| tape := tape; state := state; head := head;
                              step := step; configurations := configurations |})
          end
      end
  end.

(** [state != self.qaccept and state != self.qreject and step < max_steps] *)
Definition running (M : TuringMachine) (max_steps : Z) (r : RunState) : bool :=
  negb (bool_decide (state r = qaccept M))
  && negb (bool_decide (state r = qreject M))
  && (step r <? max_steps).

(** The [while] loop, unrolled at most [fuel] times. *)
Fixpoint loop (fuel : nat) (M : TuringMachine) (max_steps : Z) (r : RunState)
  : outcome RunState :=
  if running M max_steps r then
    match fuel with
    | O => OutOfFuel
    | S fuel' =>
        match iteration M r with
        | Ok (Continue r') => loop fuel' M max_steps r'
        | Ok (Break r') => Ok r'
        | IndexError => IndexError
        | OutOfFuel => OutOfFuel
        end
    end
  else Ok r.

(** The statements of [run] before the loop. *)
Definition start (M : TuringMachine) (input_string : str) : RunState :=
  let tape := if bool_decide (input_string = []) then [blank] else py_list input_string in
  let state := q0 M in
  let head := 0 in
  {| tape := tape; state := state; head := head; step := 0;
     configurations := capture tape state head [] |}.

(** The [if]/[elif] chain after the loop. *)
Definition verdict (M : TuringMachine) (max_steps : Z) (r : RunState) : Result :=
  if step r >=? max_steps then StepLimit
  else if bool_decide (state r = qaccept M) then Accepted
  else if bool_decide (state r = qreject M) then Rejected
  else Unknown.

(** The loop of a whole run, with the final values of all locals.  Each
    pass that does not leave the loop adds one to [step], so [max_steps]
    unrollings are enough (see [loop_enough_fuel]). *)
Definition run_state (M : TuringMachine) (input_string : str) (max_steps : Z)
  : outcome RunState :=
  loop (Z.to_nat max_steps) M max_steps (start M input_string).

(** [run(input_string, max_steps)]; [debug] only prints. *)
Definition run (M : TuringMachine) (input_string : str) (max_steps : Z)
  : outcome (list str * Result) :=
  match run_state M input_string max_steps with
  | Ok r => Ok (configurations r, verdict M max_steps r)
  | IndexError => IndexError
  | OutOfFuel => OutOfFuel
  end.

(** A machine over [{0,1}] that accepts the words ending in [1]. *)
Definition ends_in_one : TuringMachine := {|
  Q := {[ py "scan"; py "back"; py "yes"; py "no" ]};
  Sigma := {[ py "0"; py "1" ]};
  Gamma := {[ py "0"; py "1"; blank ]};
  delta := [ ((py "scan", py "0"), (py "scan", py "0", py "R"));
             ((py "scan", py "1"), (py "scan", py "1", py "R"));
             ((py "scan", blank), (py "back", blank, py "L"));
             ((py "back", py "1"), (py "yes", py "1", py "R"));
             ((py "back", py "0"), (py "no", py "0", py "R")) ];
  q0 := Some (py "scan");
  qaccept := Some (py "yes");
  qreject := Some (py "no")
|}.

(** ** Runs as derivations

    [exec M max_steps r k e r']: started with locals [r], the loop is
    left with locals [r'] after [k] transitions were applied, either by
    its condition turning false or by the [break] of a missing
    transition. *)
Inductive exit := Fallthrough | Missing.

Inductive exec (M : TuringMachine) (max_steps : Z)
  : RunState -> nat -> exit -> RunState -> Prop :=
  | exec_exit r :
      running M max_steps r = false ->
      exec M max_steps r 0 Fallthrough r
  | exec_break r r' :
      running M max_steps r = true ->
      iteration M r = Ok (Break r') ->
      exec M max_steps r 0 Missing r'
  | exec_continue r r' k e r'' :
      running M max_steps r = true ->
      iteration M r = Ok (Continue r') ->
      exec M max_steps r' k e r'' ->
      exec M max_steps r (S k) e r''.

Definition locals (c : control) : RunState :=
  match c with Continue r => r | Break r => r end.

(** The values the locals take at the end of each pass of a run. *)
Inductive reachable (M : TuringMachine) (input_string : str) (max_steps : Z)
  : RunState -> Prop :=
  | reachable_start : reachable M input_string max_steps (start M input_string)
  | reachable_next r c :
      reachable M input_string max_steps r ->
      running M max_steps r = true ->
      iteration M r = Ok c ->
      reachable M input_string max_steps (locals c).

(** ** The unsampled history of a run *)

Record snapshot := {
  index : Z;
  at_state : option str;
  text : str
}.

Definition snap (r : RunState) : snapshot :=
  {| index := step r; at_state := state r;
     text := snd (get_configuration (tape r) (state r) (head r)) |}.

(** The snapshot at the end of every pass through the loop body. *)
Fixpoint history (fuel : nat) (M : TuringMachine) (max_steps : Z) (r : RunState)
  : list snapshot :=
  if running M max_steps r then
    match fuel with
    | O => []
    | S fuel' =>
        match iteration M r with
        | Ok (Continue r') => snap r' :: history fuel' M max_steps r'
        | Ok (Break r') => [snap r']
        | _ => []
        end
    end
  else [].

Definition full_history (M : TuringMachine) (input_string : str) (max_steps : Z)
  : list snapshot :=
  snap (start M input_string)
  :: history (Z.to_nat max_steps) M max_steps (start M input_string).

(** The sampling policy: dense below 100, every 100th step after that,
    and the snapshot in a halting state. *)
Definition keep (M : TuringMachine) (s : snapshot) : bool :=
  (index s <? 100) || (index s mod 100 =? 0) || terminal M (at_state s).

(** ** Reading a configuration back *)

(** Two tapes are the same up to trailing blanks. *)
Definition tape_equiv (t1 t2 : list str) : Prop :=
  exists n m, t1 ++ replicate n blank = t2 ++ replicate m blank.

Definition snapshot_equiv (c1 c2 : list str * option str * Z) : Prop :=
  let '(t1, q1, h1) := c1 in
  let '(t2, q2, h2) := c2 in
  tape_equiv t1 t2 /\ q1 = q2 /\ h1 = h2.

Fixpoint is_prefix (p s : str) : bool :=
  match p, s with
  | [], _ => true
  | a :: p', b :: s' => bool_decide (a = b) && is_prefix p' s'
  | _ :: _, [] => false
  end.

(** Re-splitting a formatted configuration at the state marker, written
    from the specification's words (the simulator only prints
    configurations): the string is cut at the first occurrence of the
    state. *)
Fixpoint split_at_marker (marker s : str) : option (str * str) :=
  if is_prefix marker s then Some ([], drop (length marker) s)
  else
    match s with
    | [] => None
    | c :: s' =>
        match split_at_marker marker s' with
        | Some (l, r) => Some (c :: l, r)
        | None => None
        end
    end.

(** The state [q] opens with a character that no tape cell uses. *)
Definition starts_outside (sym : N -> Prop) (q : str) : Prop :=
  match q with
  | [] => False
  | c :: _ => ~ sym c
  end.

(** Neither state is the other followed by tape characters. *)
Definition unconfusable (sym : N -> Prop) (q1 q2 : str) : Prop :=
  forall w, Forall sym w -> q1 = q2 ++ w \/ q2 = q1 ++ w -> w = [].

(** Every cell of the tape holds one character, a tape character. *)
Definition cells_of (sym : N -> Prop) (tape : list str) : Prop :=
  Forall (fun cell => exists c, cell = [c] /\ sym c) tape.

(** ** Auxiliary notions *)

(** The head is on the tape or just past its right end; this holds
    whenever the loop condition is evaluated. *)
Definition wf (r : RunState) : Prop :=
  0 <= head r <= Z.of_nat (length (tape r)).

(** The symbol the next pass through the loop body reads. *)
Definition current_symbol (r : RunState) : option str :=
  let '(tape, head) := extend (tape r) (head r) in
  getitem tape head.

Definition count (c : bool) : nat := if c then 1%nat else 0%nat.

(** ** Sample machines *)

(** One transition from the initial state into the accepting state. *)
Definition accept_in_one : TuringMachine := {|
  Q := {[ py "q0"; py "qa"; py "qr" ]};
  Sigma := {[ py "0" ]};
  Gamma := {[ py "0"; blank ]};
  delta := [ ((py "q0", blank), (py "qa", blank, py "R")) ];
  q0 := Some (py "q0");
  qaccept := Some (py "qa");
  qreject := Some (py "qr")
|}.

(** No transition at all. *)
Definition no_moves : TuringMachine := {|
  Q := {[ py "q0"; py "qa"; py "qr" ]};
  Sigma := {[ py "0" ]};
  Gamma := {[ py "0"; blank ]};
  delta := [];
  q0 := Some (py "q0");
  qaccept := Some (py "qa");
  qreject := Some (py "qr")
|}.

(** No transition, and the initial state is the accepting state. *)
Definition starts_accepting : TuringMachine := {|
  Q := {[ py "qa"; py "qr" ]};
  Sigma := {[ py "0" ]};
  Gamma := {[ py "0"; blank ]};
  delta := [];
  q0 := Some (py "qa");
  qaccept := Some (py "qa");
  qreject := Some (py "qr")
|}.

(** Initial and accepting state are both missing from [Q]. *)
Definition unknown_states : TuringMachine := {|
  Q := {[ py "qr" ]};
  Sigma := {[ py "0" ]};
  Gamma := {[ py "0"; blank ]};
  delta := [];
  q0 := Some (py "q0");
  qaccept := Some (py "qa");
  qreject := Some (py "qr")
|}.

(** One transition entry, wrong in each of its five fields. *)
Definition five_bad_fields : TuringMachine := {|
  Q := {[ py "q0"; py "qa"; py "qr" ]};
  Sigma := {[ py "0" ]};
  Gamma := {[ py "0"; blank ]};
  delta := [ ((py "p", py "x"), (py "s", py "y", py "U")) ];
  q0 := Some (py "q0");
  qaccept := Some (py "qa");
  qreject := Some (py "qr")
|}.

(** Scans right for ever. *)
Definition runs_right : TuringMachine := {|
  Q := {[ py "q0"; py "qa"; py "qr" ]};
  Sigma := {[ py "0" ]};
  Gamma := {[ py "0"; blank ]};
  delta := [ ((py "q0", py "0"), (py "q0", py "0", py "R"));
             ((py "q0", blank), (py "q0", blank, py "R")) ];
  q0 := Some (py "q0");
  qaccept := Some (py "qa");
  qreject := Some (py "qr")
|}.

(** ** Passes of the loop *)

(** One pass through the loop body takes the locals from [r] to [r']. *)
Definition pass (M : TuringMachine) (max_steps : Z) (r r' : RunState) : Prop :=
  running M max_steps r = true /\ exists c, iteration M r = Ok c /\ r' = locals c.

(** The locals after at most [n] passes. *)
Fixpoint advance (n : nat) (M : TuringMachine) (max_steps : Z) (r : RunState)
  : RunState :=
  match n with
  | O => r
  | S n' =>
      if running M max_steps r then
        match iteration M r with
        | Ok c => advance n' M max_steps (locals c)
        | _ => r
        end
      else r
  end.

(** What a run can return, read off the derivations of its loop. *)
Definition runs (M : TuringMachine) (input_string : str) (max_steps : Z)
    (out : list str * Result) : Prop :=
  exists k e r,
    exec M max_steps (start M input_string) k e r
    /\ out = (configurations r, verdict M max_steps r).

(** ** What the engine reads of a machine *)

(** Two machines with the same transitions and special states. *)
Definition same_program (M M' : TuringMachine) : Prop :=
  delta M = delta M' /\ q0 M = q0 M'
  /\ qaccept M = qaccept M' /\ qreject M = qreject M'.

(** [ends_in_one] with its three sets left empty. *)
Definition ends_in_one_bare : TuringMachine := {|
  Q := ∅;
  Sigma := ∅;
  Gamma := ∅;
  delta := delta ends_in_one;
  q0 := q0 ends_in_one;
  qaccept := qaccept ends_in_one;
  qreject := qreject ends_in_one
|}.

(** The input is written over the input alphabet. *)
Definition over_sigma (M : TuringMachine) (input_string : str) : Prop :=
  Forall (fun c => [c] ∈ Sigma M) input_string.

(** ** String methods used by the loader *)

(** [c.isspace()] for one character. *)
Definition is_space (c : N) : bool :=
  ((9 <=? c) && (c <=? 13) || (28 <=? c) && (c <=? 32)
   || (c =? 133) || (c =? 160) || (c =? 5760)
   || (8192 <=? c) && (c <=? 8202)
   || (c =? 8232) || (c =? 8233) || (c =? 8239) || (c =? 8287)
   || (c =? 12288))%N.

Fixpoint lstrip_by (p : N -> bool) (s : str) : str :=
  match s with
  | [] => []
  | c :: s' => if p c then lstrip_by p s' else s
  end.

Definition rstrip_by (p : N -> bool) (s : str) : str :=
  reverse (lstrip_by p (reverse s)).

Definition strip_by (p : N -> bool) (s : str) : str :=
  rstrip_by p (lstrip_by p s).

(** [s.strip()] *)
Definition strip (s : str) : str := strip_by is_space s.

(** [s.strip(chars)] *)
Definition strip_chars (chars : str) (s : str) : str :=
  strip_by (fun c => bool_decide (c ∈ chars)) s.

(** [sub in s] *)
Fixpoint contains (sub s : str) : bool :=
  is_prefix sub s
  || match s with
     | [] => false
     | _ :: s' => contains sub s'
     end.

(** [s.split(sep)] for a non-empty [sep]: [skip] counts the characters
    of a separator just found that are still to be passed over, [cur] is
    the piece being read. *)
Fixpoint split_go (sep : str) (skip : nat) (cur : str) (s : str) : list str :=
  match s with
  | [] => [cur]
  | c :: s' =>
      match skip with
      | S k => split_go sep k cur s'
      | O =>
          if is_prefix sep s then cur :: split_go sep (length sep - 1) [] s'
          else split_go sep 0 (cur ++ [c]) s'
      end
  end.

Definition split (sep s : str) : list str := split_go sep 0 [] s.

(** ** The loader: [parse_transition] and [load_from_file] *)

(** A call returns or raises [Exception(message)]. *)
Inductive attempt (A : Type) :=
  | Returned (a : A)
  | Raised (message : str).
Arguments Returned {A} a.
Arguments Raised {A} message.

(** [d[k] = v]: overwrite in place, or append a new key. *)
Fixpoint dict_set {K V} `{EqDecision K} (k : K) (v : V) (d : list (K * V))
  : list (K * V) :=
  match d with
  | [] => [(k, v)]
  | (k', v') :: rest =>
      if decide (k = k') then (k, v) :: rest else (k', v') :: dict_set k v rest
  end.

(** [TuringMachine()] *)
Definition new_machine : TuringMachine := {|
  Q := ∅; Sigma := ∅; Gamma := ∅; delta := [];
  q0 := None; qaccept := None; qreject := None
|}.

Definition with_Q (M : TuringMachine) (X : gset str) : TuringMachine :=
  {| Q := X; Sigma := Sigma M; Gamma := Gamma M; delta := delta M;
     q0 := q0 M; qaccept := qaccept M; qreject := qreject M |}.

Definition with_Sigma (M : TuringMachine) (X : gset str) : TuringMachine :=
  {| Q := Q M; Sigma := X; Gamma := Gamma M; delta := delta M;
     q0 := q0 M; qaccept := qaccept M; qreject := qreject M |}.

Definition with_Gamma (M : TuringMachine) (X : gset str) : TuringMachine :=
  {| Q := Q M; Sigma := Sigma M; Gamma := X; delta := delta M;
     q0 := q0 M; qaccept := qaccept M; qreject := qreject M |}.

Definition with_delta (M : TuringMachine) (d : list transition) : TuringMachine :=
  {| Q := Q M; Sigma := Sigma M; Gamma := Gamma M; delta := d;
     q0 := q0 M; qaccept := qaccept M; qreject := qreject M |}.

Definition with_q0 (M : TuringMachine) (q : str) : TuringMachine :=
  {| Q := Q M; Sigma := Sigma M; Gamma := Gamma M; delta := delta M;
     q0 := Some q; qaccept := qaccept M; qreject := qreject M |}.

Definition with_qaccept (M : TuringMachine) (q : str) : TuringMachine :=
  {| Q := Q M; Sigma := Sigma M; Gamma := Gamma M; delta := delta M;
     q0 := q0 M; qaccept := Some q; qreject := qreject M |}.

Definition with_qreject (M : TuringMachine) (q : str) : TuringMachine :=
  {| Q := Q M; Sigma := Sigma M; Gamma := Gamma M; delta := delta M;
     q0 := q0 M; qaccept := qaccept M; qreject := Some q |}.

(** The message of the exception [parse_transition] raises. *)
Definition parse_error (trans : str) : str :=
  py "Error al parsear transición: " ++ trans.

(** [parse_transition(trans)], on the dict [delta] it updates.  Each of
    the three unpackings raises unless the list has the expected
    length; the bare [except] turns whatever was raised into one
    message.  The dict is assigned last, so it is unchanged when the
    call raises. *)
Definition parse_transition (delta : list transition) (trans : str)
  : attempt (list transition) :=
  match split (py "->") trans with
  | [left_; right_] =>
      let left_ := strip_chars (py "()") (strip left_) in
      let right_ := strip_chars (py "()") (strip right_) in
      match strip <$> split (py ",") left_ with
      | [state; symbol] =>
          match strip <$> split (py ",") right_ with
          | [new_state; new_symbol; direction] =>
              Returned (dict_set (state, symbol)
                                 (new_state, new_symbol, direction) delta)
          | _ => Raised (parse_error trans)
          end
      | _ => Raised (parse_error trans)
      end
  | _ => Raised (parse_error trans)
  end.

(** The list comprehension over [f.readlines()]: lines are stripped,
    empty lines and lines starting with [#] are dropped. *)
Definition clean (raw : list str) : list str :=
  strip <$> List.filter
              (fun line => negb (bool_decide (strip line = []))
                           && negb (is_prefix (py "#") (strip line)))
              raw.

(** The test that ends the inner loop of the [delta:] section. *)
Definition section_line (line : str) : bool :=
  contains (py ":") line && negb (contains (py "->") line).

(** The two nested [while] loops over [lines].  [in_delta] tells
    whether the inner loop is running; the line that ends it is looked
    at again by the outer loop.  What [parse_transition] raises is
    wrapped by the last [except] clause. *)
Fixpoint load_sections (in_delta : bool) (M : TuringMachine) (lines : list str)
  : attempt (TuringMachine * str) :=
  match lines with
  | [] => Returned (M, [])
  | line :: rest =>
      if in_delta && negb (section_line line) then
        let trans := strip line in
        if bool_decide (trans = []) then load_sections true M rest
        else
          match parse_transition (delta M) trans with
          | Returned d => load_sections true (with_delta M d) rest
          | Raised message =>
              Raised (py "Error al cargar el archivo: " ++ message)
          end
      else if is_prefix (py "Q:") line then
        load_sections false
          (with_Q M (list_to_set (split (py ",") (strip (drop 2 line))))) rest
      else if is_prefix (py "Sigma:") line then
        load_sections false
          (with_Sigma M (list_to_set (split (py ",") (strip (drop 6 line))))) rest
      else if is_prefix (py "Gamma:") line then
        load_sections false
          (with_Gamma M (list_to_set (split (py ",") (strip (drop 6 line))))) rest
      else if is_prefix (py "q0:") line then
        load_sections false (with_q0 M (strip (drop 3 line))) rest
      else if is_prefix (py "qaccept:") line then
        load_sections false (with_qaccept M (strip (drop 8 line))) rest
      else if is_prefix (py "qreject:") line then
        load_sections false (with_qreject M (strip (drop 8 line))) rest
      else if is_prefix (py "delta:") line then
        load_sections true M rest
      else if is_prefix (py "input:") line then
        Returned (M, strip (drop 6 line))
      else load_sections false M rest
  end.

(** What opening and reading the file comes to: [open] raises
    [FileNotFoundError]; or [open], [readlines] or the closing of the
    file raises another exception, whose text [str(e)] is [message]
    (a directory, a file that may not be read, bytes that are not
    UTF-8); or [readlines] returns the lines [raw]. *)
Inductive file_read :=
  | NoSuchFile
  | ReadFails (message : str)
  | Lines (raw : list str).

(** [load_from_file(filename)] on the machine [M], returning the machine
    as the call leaves it next to the input string.  The first [except]
    clause answers a missing file, the second wraps every other
    exception, those of [parse_transition] (inside [load_sections])
    and those of the reading alike. *)
Definition load_from_file (M : TuringMachine) (filename : str)
    (file : file_read) : attempt (TuringMachine * str) :=
  match file with
  | NoSuchFile => Raised (py "Archivo " ++ filename ++ py " no encontrado")
  | ReadFails message => Raised (py "Error al cargar el archivo: " ++ message)
  | Lines raw => load_sections false M (clean raw)
  end.

(** A specification file for [ends_in_one], line by line. *)
Definition ends_in_one_file : list str :=
  (fun l => py l ++ [10%N]) <$>
  [ "# acepta las cadenas que terminan en 1";
    "Q: scan,back,yes,no";
    "Sigma: 0,1";
    "Gamma: 0,1,⊔";
    "q0: scan";
    "qaccept: yes";
    "qreject: no";
    "";
    "delta:";
    "(scan,0)->(scan,0,R)";
    "  (scan, 1) -> (scan, 1, R)";
    "(scan,⊔)->(back,⊔,L)";
    "(back,1)->(yes,1,R)";
    "(back,0)->(no,0,R)";
    "input: 0101";
    "Q: ignored" ]%string.

(** ** Transition lines as they are written *)

(** No comma, parenthesis or [>] in [s]. *)
Definition no_delims (s : str) : Prop := Forall (fun c => c ∉ py ",()>") s.

Definition all_space (s : str) : Prop := Forall (fun c => is_space c = true) s.

(** The line [(q,a)->(q',b,D)] of the docstring of [parse_transition],
    with optional blanks [w1], [w2] around the arrow. *)
Definition transition_line (q a w1 w2 q' b d : str) : str :=
  py "(" ++ q ++ py "," ++ a ++ py ")" ++ w1 ++ py "->" ++ w2
  ++ py "(" ++ q' ++ py "," ++ b ++ py "," ++ d ++ py ")".

(** A line whose text, once stripped, opens with [input:] and holds no
    arrow. *)
Definition input_line (line : str) : Prop :=
  is_prefix (py "input:") (strip line) = true
  /\ contains (py "->") (strip line) = false.

(** ** The writer: [save_output] *)

(** [str(n)] for an integer: decimal digits, most significant first;
    [fuel] bounds the number of digits. *)
Fixpoint digits_go (fuel : nat) (n : N) (acc : str) : str :=
  match fuel with
  | O => acc
  | S fuel' =>
      let acc := (48 + n mod 10)%N :: acc in
      if (n <? 10)%N then acc else digits_go fuel' (n / 10)%N acc
  end.

Definition str_of_int (z : Z) : str :=
  let n := Z.abs_N z in
  let digits := digits_go (S (N.to_nat (N.log2 n))) n [] in
  if z <? 0 then 45%N :: digits else digits.

(** The value of a string of decimal digits. *)
Definition int_of_digits (s : str) : N :=
  fold_left (fun acc c => (acc * 10 + (c - 48))%N) s 0%N.

(** The newline character. *)
Definition nl : str := [10%N].

(** ["=" * 50] *)
Definition rule : str := replicate 50 61%N.

(** [save_output(filename, configurations, result)]: the text written to
    the file, one list element per call of [f.write]. *)
Definition save_writes (configurations : list str) (result : str) : list str :=
  [py "CONFIGURACIONES DE LA MÁQUINA DE TURING" ++ nl;
   rule ++ nl ++ nl]
  ++ ((fun config => config ++ nl) <$> configurations)
  ++ [nl ++ rule ++ nl;
      py "RESULTADO: " ++ result ++ nl;
      py "Número de pasos: "
      ++ str_of_int (Z.of_nat (length configurations) - 1) ++ nl].

Definition save_output (configurations : list str) (result : str) : str :=
  concat (save_writes configurations result).

(** * Properties *)

Example blank_literal : py "⊔" = blank.
Proof. reflexivity. Qed.

Example ends_in_one_valid : verify_specification ends_in_one = [].
Proof. vm_compute. reflexivity. Qed.

Example ends_in_one_0101 :
  run ends_in_one (py "0101") 10000
  = Ok ([py "scan0101"; py "0scan101"; py "01scan01"; py "010scan1";
         py "0101scan⊔"; py "010back1"; py "0101yes⊔"], Accepted).
Proof. vm_compute. reflexivity. Qed.


(** ** Subscripts and the tape *)

Ltac list_len :=
  repeat first [rewrite length_cons | rewrite length_app
               | rewrite length_insert | rewrite length_nil];
  lia.

Lemma py_index_in_range n i :
  0 <= i < Z.of_nat n -> py_index n i = Some (Z.to_nat i).
Proof.
  intros Hi. unfold py_index.
  destruct (Z.leb_spec 0 i); [|lia].
  destruct (Z.ltb_spec i (Z.of_nat n)); [|lia]. reflexivity.
Qed.

Lemma getitem_in_range {A} (l : list A) i :
  0 <= i < Z.of_nat (length l) ->
  exists x, getitem l i = Some x /\ l !! Z.to_nat i = Some x.
Proof.
  intros Hi. unfold getitem. rewrite py_index_in_range by done.
  destruct (lookup_lt_is_Some_2 l (Z.to_nat i)) as [x Hx]; [lia|].
  exists x. by rewrite Hx.
Qed.

Lemma setitem_in_range {A} (l : list A) i x :
  0 <= i < Z.of_nat (length l) ->
  setitem l i x = Some (<[Z.to_nat i:=x]> l).
Proof. intros Hi. unfold setitem. by rewrite py_index_in_range. Qed.

Lemma setitem_length {A} (l l' : list A) i x :
  setitem l i x = Some l' -> length l' = length l.
Proof.
  unfold setitem. destruct (py_index _ _); [|done].
  intros [= <-]. apply length_insert.
Qed.

Lemma extend_grows tape head tape' head' :
  extend tape head = (tape', head') -> (length tape <= length tape')%nat.
Proof.
  unfold extend. destruct (head <? 0); cbv zeta beta iota;
    destruct (_ >=? _); intros [= <- <-];
    list_len.
Qed.

Lemma extend_in_range tape head :
  0 <= head <= Z.of_nat (length tape) ->
  extend tape head
  = (if bool_decide (head = Z.of_nat (length tape)) then tape ++ [blank] else tape,
     head).
Proof.
  intros Hh. unfold extend.
  destruct (Z.ltb_spec head 0); [lia|].
  case_bool_decide; destruct (Z.geb_spec head (Z.of_nat (length tape)));
    (reflexivity || lia).
Qed.

Lemma extend_bounds tape head tape' head' :
  0 <= head <= Z.of_nat (length tape) ->
  extend tape head = (tape', head') ->
  0 <= head' < Z.of_nat (length tape').
Proof.
  intros Hh. rewrite extend_in_range by done.
  case_bool_decide; intros [= <- <-]; list_len.
Qed.

Lemma move_grows tape head direction tape' head' :
  move tape head direction = (tape', head') -> (length tape <= length tape')%nat.
Proof.
  unfold move. repeat case_bool_decide; try destruct (_ <? _);
    intros [= <- <-]; list_len.
Qed.

Lemma move_bounds tape head direction tape' head' :
  0 <= head < Z.of_nat (length tape) ->
  move tape head direction = (tape', head') ->
  0 <= head' <= Z.of_nat (length tape').
Proof.
  intros Hh. unfold move. repeat case_bool_decide;
    try destruct (Z.ltb_spec (head - 1) 0);
    intros [= <- <-]; list_len.
Qed.

(** ** One pass through the loop body *)

Lemma iteration_grows M r c :
  iteration M r = Ok c -> (length (tape r) <= length (tape (locals c)))%nat.
Proof.
  unfold iteration.
  destruct (extend _ _) as [t h] eqn:He. apply extend_grows in He.
  destruct (getitem t h); [|done].
  destruct (lookup_delta _ _ _) as [[[q a] d]|].
  - destruct (setitem t h a) as [t'|] eqn:Hs; [|done].
    apply setitem_length in Hs.
    destruct (move t' h d) as [t'' h''] eqn:Hm. apply move_grows in Hm.
    intros [= <-]. simpl. lia.
  - intros [= <-]. simpl. lia.
Qed.

Lemma iteration_wf M r :
  wf r ->
  exists c, iteration M r = Ok c /\ wf (locals c).
Proof.
  unfold wf, iteration. intros Hr.
  destruct (extend _ _) as [t h] eqn:He.
  pose proof (extend_bounds _ _ _ _ Hr He) as Hh.
  destruct (getitem_in_range t h Hh) as (x & -> & _).
  destruct (lookup_delta _ _ _) as [[[q a] d]|].
  - rewrite setitem_in_range by done.
    destruct (move _ h d) as [t'' h''] eqn:Hm.
    eexists. split; [reflexivity|]. simpl.
    eapply move_bounds; [|exact Hm]. by rewrite length_insert.
  - eexists. split; [reflexivity|]. simpl. lia.
Qed.

Lemma iteration_continue_step M r r' :
  iteration M r = Ok (Continue r') -> step r' = step r + 1.
Proof.
  unfold iteration.
  destruct (extend _ _) as [t h].
  destruct (getitem t h); [|done].
  destruct (lookup_delta _ _ _) as [[[q a] d]|]; [|done].
  destruct (setitem t h a); [|done].
  destruct (move _ h d). by intros [= <-].
Qed.

Lemma iteration_break M r r' :
  iteration M r = Ok (Break r') ->
  step r' = step r /\ state r' = qreject M /\
  (tape r', head r') = extend (tape r) (head r) /\
  configurations r'
  = configurations r
    ++ [snd (get_configuration (tape r') (qreject M) (head r'))] /\
  exists symbol, getitem (tape r') (head r') = Some symbol /\
                 lookup_delta M (state r) symbol = None.
Proof.
  unfold iteration.
  destruct (extend _ _) as [t h].
  destruct (getitem t h) as [x|] eqn:Hx; [|done].
  destruct (lookup_delta _ _ _) as [[[q a] d]|] eqn:Hl.
  - destruct (setitem t h a); [|done]. by destruct (move _ h d).
  - intros [= <-]. simpl. repeat split; eauto.
Qed.

Lemma start_wf M input_string : wf (start M input_string).
Proof.
  unfold wf, start. simpl. lia.
Qed.

Lemma reachable_wf M input_string max_steps r :
  reachable M input_string max_steps r -> wf r.
Proof.
  induction 1 as [|r c _ IH _ Hit]; [apply start_wf|].
  destruct (iteration_wf M r IH) as (c' & Hc' & Hwf). congruence.
Qed.

(** ** The loop *)

Lemma running_step M max_steps r :
  running M max_steps r = true -> step r < max_steps.
Proof.
  unfold running. intros H. apply andb_prop in H as [_ H]. lia.
Qed.

Lemma running_not_terminal M max_steps r :
  running M max_steps r = true -> terminal M (state r) = false.
Proof.
  unfold running, terminal. intros H.
  apply andb_prop in H as [H _]. apply andb_prop in H as [H1 H2].
  apply negb_true_iff in H1, H2. by rewrite H1, H2.
Qed.

Lemma loop_exec fuel M max_steps r r' :
  loop fuel M max_steps r = Ok r' -> exists k e, exec M max_steps r k e r'.
Proof.
  revert r. induction fuel as [|fuel IH]; intros r; simpl;
    destruct (running M max_steps r) eqn:Hrun; try done.
  - intros [= <-]. exists 0%nat, Fallthrough. by constructor.
  - destruct (iteration M r) as [[r1|r1]| |] eqn:Hit; try done.
    + intros H. destruct (IH _ H) as (k & e & Hex).
      exists (S k), e. by econstructor.
    + intros [= <-]. exists 0%nat, Missing. by constructor.
  - intros [= <-]. exists 0%nat, Fallthrough. by constructor.
Qed.

Lemma exec_loop M max_steps r k e r' :
  exec M max_steps r k e r' ->
  forall fuel, (k + match e with Fallthrough => 0 | Missing => 1 end <= fuel)%nat ->
               loop fuel M max_steps r = Ok r'.
Proof.
  induction 1 as [r Hrun|r r' Hrun Hit|r r' k e r'' Hrun Hit _ IH];
    intros [|fuel] Hf; simpl; rewrite ?Hrun, ?Hit; try done; try lia.
  apply IH. lia.
Qed.

Lemma exec_deterministic M max_steps r k1 e1 r1 k2 e2 r2 :
  exec M max_steps r k1 e1 r1 ->
  exec M max_steps r k2 e2 r2 ->
  k1 = k2 /\ e1 = e2 /\ r1 = r2.
Proof.
  intros H1. revert k2 e2 r2.
  induction H1 as [r Hrun|r r' Hrun Hit|r r' k e r'' Hrun Hit _ IH];
    intros k2 e2 r2 H2; inversion H2; subst; try congruence; auto.
  - repeat split; congruence.
  - match goal with
    | Hit' : iteration M r = Ok (Continue ?x), Hex : exec _ _ ?x _ _ _ |- _ =>
        assert (r' = x) as <- by congruence;
        destruct (IH _ _ _ Hex) as (-> & -> & ->)
    end.
    done.
Qed.

Lemma exec_step M max_steps r k e r' :
  exec M max_steps r k e r' -> step r' = step r + Z.of_nat k.
Proof.
  induction 1 as [r Hrun|r r' Hrun Hit|r r' k e r'' Hrun Hit _ IH].
  - lia.
  - apply iteration_break in Hit as [-> _]. lia.
  - apply iteration_continue_step in Hit. lia.
Qed.

Lemma exec_total M max_steps r :
  wf r ->
  exists k e r', exec M max_steps r k e r'
                 /\ (Z.of_nat k <= Z.max 0 (max_steps - step r)).
Proof.
  remember (Z.to_nat (max_steps - step r)) as n eqn:Hn.
  revert r Hn. induction (lt_wf n) as [n _ IH]. intros r -> Hwf.
  destruct (running M max_steps r) eqn:Hrun.
  - pose proof (running_step _ _ _ Hrun) as Hlt.
    destruct (iteration_wf M r Hwf) as ([r1|r1] & Hit & Hwf1); simpl in Hwf1.
    + pose proof (iteration_continue_step _ _ _ Hit) as Hs.
      destruct (IH (Z.to_nat (max_steps - step r1)) ltac:(lia) r1 eq_refl Hwf1)
        as (k & e & r' & Hex & Hk).
      exists (S k), e, r'. split; [by econstructor|lia].
    + exists 0%nat, Missing, r1. split; [by constructor|lia].
  - exists 0%nat, Fallthrough, r. split; [by constructor|lia].
Qed.

Lemma exec_fallthrough M max_steps r k r' :
  exec M max_steps r k Fallthrough r' -> running M max_steps r' = false.
Proof.
  remember Fallthrough as e eqn:He.
  induction 1; auto; discriminate.
Qed.

Lemma exec_missing M max_steps r k r' :
  exec M max_steps r k Missing r' ->
  state r' = qreject M /\ step r' < max_steps.
Proof.
  remember Missing as e eqn:He.
  induction 1 as [r Hrun|r r' Hrun Hit|r r' k e r'' Hrun Hit _ IH];
    [discriminate| |auto].
  apply running_step in Hrun.
  apply iteration_break in Hit as (-> & -> & _). done.
Qed.

(** [max_steps] unrollings always reach the end of the loop of a run. *)
Lemma loop_enough_fuel M max_steps r :
  wf r -> step r = 0 ->
  exists k e r', exec M max_steps r k e r'
                 /\ loop (Z.to_nat max_steps) M max_steps r = Ok r'.
Proof.
  intros Hwf Hs.
  destruct (exec_total M max_steps r Hwf) as (k & e & r' & Hex & Hk).
  exists k, e, r'. split; [done|].
  eapply exec_loop; [done|]. destruct e; [lia|].
  apply exec_missing in Hex as Hm. destruct Hm as [_ Hm].
  pose proof (exec_step _ _ _ _ _ _ Hex) as Hst. lia.
Qed.

(** ** Whole runs *)

Lemma run_state_exec M input_string max_steps :
  exists k e r,
    exec M max_steps (start M input_string) k e r
    /\ run_state M input_string max_steps = Ok r.
Proof. apply loop_enough_fuel; [apply start_wf|reflexivity]. Qed.

Lemma exec_run_state M input_string max_steps k e r :
  exec M max_steps (start M input_string) k e r ->
  run_state M input_string max_steps = Ok r.
Proof.
  intros Hex.
  destruct (run_state_exec M input_string max_steps) as (k' & e' & r' & Hex' & ->).
  by destruct (exec_deterministic _ _ _ _ _ _ _ _ _ Hex Hex') as (_ & _ & ->).
Qed.

Lemma run_of_run_state M input_string max_steps r :
  run_state M input_string max_steps = Ok r ->
  run M input_string max_steps = Ok (configurations r, verdict M max_steps r).
Proof. unfold run. by intros ->. Qed.

Lemma reachable_exec M input_string max_steps r :
  reachable M input_string max_steps r ->
  forall k e r', exec M max_steps r k e r' ->
  exists k0 e0, exec M max_steps (start M input_string) k0 e0 r'.
Proof.
  induction 1 as [|r c _ IH Hrun Hit]; intros k e r' Hex; [by eauto|].
  destruct c as [r1|r1]; simpl in Hex.
  - eapply IH. by econstructor.
  - assert (running M max_steps r1 = false) as Hstop.
    { apply iteration_break in Hit as (_ & Hq & _).
      unfold running. rewrite Hq.
      rewrite (bool_decide_eq_true_2 (qreject M = qreject M)) by done.
      simpl. by rewrite andb_false_r. }
    inversion Hex; subst; try congruence.
    eapply IH. by constructor.
Qed.

(** ** The validator *)

Lemma elem_of_when c e e' : e' ∈ when c e <-> c = true /\ e' = e.
Proof.
  destruct c; simpl.
  - rewrite list_elem_of_singleton. split; [by intros ->|by intros [_ ->]].
  - split; [intros H; by apply not_elem_of_nil in H|by intros [? _]].
Qed.

Lemma when_nil c e : when c e = [] <-> c = false.
Proof. by destruct c. Qed.

Lemma when_length c e : length (when c e) = if c then 1%nat else 0%nat.
Proof. by destruct c. Qed.

Lemma check_transition_nil M t :
  check_transition M t = [] <-> transition_ok M t = true.
Proof.
  destruct t as [[q a] [[q' a'] d]]. unfold check_transition, transition_ok.
  repeat case_bool_decide; destruct (is_direction d); simpl; naive_solver.
Qed.

Lemma check_transition_category M t e :
  e ∈ check_transition M t -> category e = 7%nat /\ transition_ok M t = false.
Proof.
  destruct t as [[q a] [[q' a'] d]]. unfold check_transition, transition_ok.
  rewrite !elem_of_app, !elem_of_when, !negb_true_iff.
  intros [[H ->]|[[H ->]|[[H ->]|[[H ->]|[H ->]]]]]; rewrite H; simpl;
    rewrite ?andb_false_r; done.
Qed.

Lemma flat_map_nil {A B} (f : A -> list B) l :
  flat_map f l = [] <-> Forall (fun x => f x = []) l.
Proof.
  induction l as [|x l IH]; simpl.
  - split; [constructor|done].
  - rewrite Forall_cons, <- IH. split.
    + by intros [-> ->]%app_eq_nil.
    + by intros [-> ->].
Qed.

Lemma transitions_nil M :
  flat_map (check_transition M) (delta M) = [] <-> condition 7 M = true.
Proof.
  simpl. rewrite flat_map_nil, forallb_forall, Forall_forall.
  setoid_rewrite check_transition_nil. by setoid_rewrite list_elem_of_In.
Qed.

Lemma transitions_category M e :
  e ∈ flat_map (check_transition M) (delta M) ->
  category e = 7%nat /\ condition 7 M = false.
Proof.
  rewrite list_elem_of_In, in_flat_map. intros (t & Ht & He).
  apply list_elem_of_In, check_transition_category in He as [-> Hko].
  split; [done|]. simpl. apply not_true_is_false. rewrite forallb_forall.
  intros Hall. specialize (Hall t Ht). congruence.
Qed.

(** Every reported error belongs to a violated condition. *)
Lemma verify_errors_category M e :
  e ∈ verify_errors M -> condition (category e) M = false.
Proof.
  unfold verify_errors. rewrite !elem_of_app, !elem_of_when, !negb_true_iff.
  intros [[H ->]|[[H ->]|[[H ->]|[[H ->]|[[H ->]|[[H ->]|[[H ->]|[[H ->]|[[H ->]|[[H ->]|H]]]]]]]]]];
    try (simpl; rewrite H; simpl; rewrite ?andb_false_r; done).
  by apply transitions_category in H as [-> ?].
Qed.

(** Every violated condition is reported. *)
Tactic Notation "reported" integer(n) :=
  split; [|reflexivity]; unfold verify_errors;
  do n (apply elem_of_app; right); apply elem_of_app; left;
  apply elem_of_when; split; [|reflexivity].

Lemma verify_errors_complete M k :
  condition k M = false -> exists e, e ∈ verify_errors M /\ category e = k.
Proof.
  intros Hk.
  do 8 try (destruct k as [|k]); try discriminate; simpl in Hk.
  - apply andb_false_iff in Hk as [Hk|Hk];
      [apply andb_false_iff in Hk as [Hk|Hk]|];
      apply negb_false_iff in Hk.
    + exists EmptyQ. by reported 0.
    + exists EmptySigma. by reported 1.
    + exists EmptyGamma. by reported 2.
  - exists BlankNotInGamma. reported 3. by rewrite Hk.
  - exists SigmaNotSubset. reported 4. by rewrite Hk.
  - apply negb_false_iff in Hk. exists BlankInSigma. by reported 5.
  - apply andb_false_iff in Hk as [Hk|Hk];
      [apply andb_false_iff in Hk as [Hk|Hk]|].
    + exists (InitialNotInQ (q0 M)). reported 6. by rewrite Hk.
    + exists (AcceptNotInQ (qaccept M)). reported 7. by rewrite Hk.
    + exists (RejectNotInQ (qreject M)). reported 8. by rewrite Hk.
  - apply negb_false_iff in Hk. exists AcceptEqReject. by reported 9.
  - destruct (flat_map (check_transition M) (delta M)) as [|e l] eqn:He.
    + apply transitions_nil in He. simpl in He. congruence.
    + assert (e ∈ flat_map (check_transition M) (delta M)) as Hin
        by (rewrite He; left).
      exists e. split.
      * unfold verify_errors. do 10 (apply elem_of_app; right). done.
      * by apply transitions_category in Hin as [-> _].
Qed.

Lemma verify_specification_nil M :
  verify_specification M = [] <-> forall k, condition k M = true.
Proof.
  unfold verify_specification.
  assert (message <$> verify_errors M = [] <-> verify_errors M = []) as ->
    by (split; [apply fmap_nil_inv|by intros ->]).
  split.
  - intros Hnil k. destruct (condition k M) eqn:Hk; [done|].
    apply verify_errors_complete in Hk as (e & He & _).
    rewrite Hnil in He. by apply not_elem_of_nil in He.
  - intros Hall. destruct (verify_errors M) as [|e l] eqn:He; [done|].
    assert (e ∈ verify_errors M) as Hin by (rewrite He; left).
    apply verify_errors_category in Hin. by rewrite Hall in Hin.
Qed.

Lemma valid_conditions M :
  valid M -> forall k, condition k M = true.
Proof. apply verify_specification_nil. Qed.

Lemma valid_accept_reject M : valid M -> qaccept M <> qreject M.
Proof.
  intros H. pose proof (valid_conditions M H 6%nat) as H6. simpl in H6.
  apply negb_true_iff in H6. by apply bool_decide_eq_false in H6.
Qed.

Lemma mem_nonempty (q : option str) (X : gset str) : mem q X = true -> bool_decide (X = ∅) = false.
Proof.
  destruct q as [s|]; simpl; [|done].
  intros Hs%bool_decide_eq_true. apply bool_decide_eq_false. set_solver.
Qed.

Lemma elem_nonempty (a : str) (X : gset str) :
  bool_decide (a ∈ X) = true -> bool_decide (X = ∅) = false.
Proof.
  intros Hs%bool_decide_eq_true. apply bool_decide_eq_false. set_solver.
Qed.

Lemma verify_errors_length M :
  length (verify_errors M)
  = (count (bool_decide (Q M = ∅)) + count (bool_decide (Sigma M = ∅))
     + count (bool_decide (Gamma M = ∅))
     + count (negb (bool_decide (blank ∈ Gamma M)))
     + count (negb (bool_decide (Sigma M ⊆ Gamma M)))
     + count (bool_decide (blank ∈ Sigma M))
     + count (negb (mem (q0 M) (Q M))) + count (negb (mem (qaccept M) (Q M)))
     + count (negb (mem (qreject M) (Q M)))
     + count (bool_decide (qaccept M = qreject M))
     + length (flat_map (check_transition M) (delta M)))%nat.
Proof.
  unfold verify_errors. rewrite !length_app, !when_length. unfold count. lia.
Qed.

Ltac split_conditions :=
  repeat match goal with
    | H : _ && _ = true |- _ => apply andb_prop in H as [? ?]
    | H : negb _ = true |- _ => apply negb_true_iff in H
    | H : negb _ = false |- _ => apply negb_false_iff in H
    end.

Ltac use_others H :=
  let go j := (let Hj := fresh "Hc" in try (assert (Hj := H j ltac:(done)))) in
  go 1%nat; go 2%nat; go 3%nat; go 4%nat; go 5%nat; go 6%nat; go 7%nat.

Ltac rewrite_conditions :=
  simpl in *; split_conditions;
  repeat match goal with H : bool_decide _ = _ |- _ => rewrite H end;
  repeat match goal with H : mem _ _ = _ |- _ => rewrite H end.

(** What the validator reports when exactly one condition is violated. *)
Lemma single_violation_length M k :
  condition k M = false ->
  (forall j, j <> k -> condition j M = true) ->
  length (verify_errors M)
  = match k with
    | 5%nat => (count (negb (mem (q0 M) (Q M))) + count (negb (mem (qaccept M) (Q M)))
                + count (negb (mem (qreject M) (Q M))))%nat
    | 7%nat => length (flat_map (check_transition M) (delta M))
    | _ => 1%nat
    end.
Proof.
  intros Hk Hothers. rewrite verify_errors_length.
  do 8 try (destruct k as [|k]); try discriminate; use_others Hothers;
    clear Hothers;
    try match goal with
      | H : condition 7 _ = true |- _ =>
          rewrite (proj2 (transitions_nil M)) by exact H; clear H
      end.
  - simpl in *. split_conditions.
    rewrite (mem_nonempty (q0 M)), (elem_nonempty blank (Gamma M)) in * by done.
    simpl in Hk. rewrite andb_true_r in Hk. rewrite_conditions. done.
  - rewrite_conditions. done.
  - rewrite_conditions. done.
  - rewrite_conditions. done.
  - clear Hk. rewrite_conditions. simpl. lia.
  - rewrite_conditions. done.
  - clear Hk. rewrite_conditions. done.
Qed.

(** ** C3: the validator's report *)

(** C3 (as stated, refuted): [unknown_states] violates only the fifth
    condition (special states are members of [Q]), and the validator
    returns two errors for it, not one. *)
Lemma single_category_two_errors :
  condition 5 unknown_states = false
  /\ (forall j, j <> 5%nat -> condition j unknown_states = true)
  /\ length (verify_specification unknown_states) <> 1%nat.
Proof.
  split; [by vm_compute|]. split.
  - intros j Hj. do 8 try (destruct j as [|j]); try done; by vm_compute.
  - by vm_compute.
Qed.

Lemma check_transition_offending M t : check_transition M t = offending M t.
Proof.
  destruct t as [[q a] [[q' a'] d]]. unfold check_transition, offending.
  cbn [transition_fields List.filter fst].
  repeat case_bool_decide; destruct (is_direction d); reflexivity.
Qed.

Lemma flat_map_sum {A B} (f : A -> list B) (l : list A) :
  length (flat_map f l) = sum_list ((fun x => length (f x)) <$> l).
Proof.
  induction l as [|x l IH]; [done|].
  cbn [flat_map]. rewrite length_app, IH. done.
Qed.

(** With the first six conditions met, the errors are those of the
    transition entries. *)
Lemma only_transition_errors M :
  (forall j, j <> 7%nat -> condition j M = true) ->
  verify_errors M = flat_map (check_transition M) (delta M).
Proof.
  intros Hothers. use_others Hothers. clear Hothers.
  unfold verify_errors. rewrite_conditions. done.
Qed.

(** C3 (amended): the validator is a total function; its list of errors
    is empty exactly when the seven consistency conditions hold; when
    exactly one condition is violated the list is not empty and every
    error in it reports that condition: one error for conditions 1, 2,
    3, 4 and 6, one error per special state missing from [Q] for
    condition 5, and for condition 7 one error per offending field of
    each transition entry, entry by entry and field by field (source
    state, source symbol, target state, target symbol, direction). *)
Theorem verify_specification_report M :
  (verify_specification M = [] <-> forall k, condition k M = true)
  /\ (forall k,
        condition k M = false ->
        (forall j, j <> k -> condition j M = true) ->
        verify_specification M <> []
        /\ Forall (fun e => category e = k) (verify_errors M)
        /\ length (verify_specification M)
           = match k with
             | 5%nat => (count (negb (mem (q0 M) (Q M)))
                         + count (negb (mem (qaccept M) (Q M)))
                         + count (negb (mem (qreject M) (Q M))))%nat
             | 7%nat =>
                 sum_list ((fun t => length (List.filter
                                              (fun field => negb (fst field))
                                              (transition_fields M t)))
                           <$> delta M)
             | _ => 1%nat
             end
        /\ (k = 7%nat ->
            verify_errors M = flat_map (offending M) (delta M))).
Proof.
  split; [apply verify_specification_nil|].
  intros k Hk Hothers. split; [|split; [|split]].
  - rewrite verify_specification_nil. intros Hall. by rewrite Hall in Hk.
  - apply Forall_forall. intros e He%verify_errors_category.
    destruct (decide (category e = k)) as [|Hne]; [done|].
    rewrite Hothers in He; done.
  - unfold verify_specification. rewrite length_fmap.
    rewrite (single_violation_length M k Hk Hothers).
    do 8 try (destruct k as [|k]); try done.
    rewrite flat_map_sum. f_equal. apply list_fmap_ext. intros _ t _.
    rewrite check_transition_offending. unfold offending.
    by rewrite length_fmap.
  - intros ->. rewrite (only_transition_errors M Hothers).
    clear. induction (delta M) as [|t l IH]; [done|].
    cbn [flat_map]. by rewrite IH, check_transition_offending.
Qed.

Lemma verify_specification_report_witness :
  verify_specification five_bad_fields <> []
  /\ Forall (fun e => category e = 7%nat) (verify_errors five_bad_fields)
  /\ length (verify_specification five_bad_fields) = 5%nat
  /\ (7%nat = 7%nat ->
      verify_errors five_bad_fields
      = [DeltaState (py "p"); DeltaSymbol (py "x"); DeltaState (py "s");
         DeltaSymbol (py "y"); DeltaDirection (py "U")]).
Proof.
  refine (proj2 (verify_specification_report five_bad_fields) 7%nat _ _).
  - vm_compute. reflexivity.
  - intros j Hj. do 8 try (destruct j as [|j]); try reflexivity.
    exfalso. apply Hj. reflexivity.
Defined.

(** Two special states missing from [Q]: two errors of condition 5. *)
Example two_missing_states :
  verify_errors unknown_states
  = [InitialNotInQ (Some (py "q0")); AcceptNotInQ (Some (py "qa"))].
Proof. by vm_compute. Qed.

(** ** C9: the three results *)

Lemma verdict_known M max_steps r :
  running M max_steps r = false \/ state r = qreject M ->
  verdict M max_steps r <> Unknown.
Proof.
  intros Hstop. unfold verdict.
  destruct (Z.geb_spec (step r) max_steps); [done|].
  repeat case_bool_decide; try done.
  destruct Hstop as [Hstop|Hstop]; [|done].
  unfold running in Hstop.
  rewrite !bool_decide_eq_false_2 in Hstop by done. simpl in Hstop. lia.
Qed.

(** C9: every run returns, without raising, one of [Accepted],
    [Rejected] and [StepLimit]; the fourth branch of the result chain is
    never taken, whatever the specification, the input and the limit. *)
Theorem run_three_results M input_string max_steps :
  exists configurations result,
    run M input_string max_steps = Ok (configurations, result)
    /\ result <> Unknown
    /\ (result = Accepted \/ result = Rejected \/ result = StepLimit).
Proof.
  destruct (run_state_exec M input_string max_steps) as (k & e & r & Hex & Hr).
  exists (configurations r), (verdict M max_steps r).
  split; [by apply run_of_run_state|].
  assert (verdict M max_steps r <> Unknown) as Hne.
  { apply verdict_known. destruct e.
    - left. by eapply exec_fallthrough.
    - right. by eapply exec_missing. }
  split; [done|]. destruct (verdict M max_steps r); auto. done.
Qed.

(** ** C1: a halting state met on the last allowed step *)

(** The result chain tests the step counter first: a halting state is
    reported only when it is reached with the counter below the limit. *)
Lemma verdict_halting M max_steps r :
  (verdict M max_steps r = Accepted
   <-> state r = qaccept M /\ step r < max_steps)
  /\ (verdict M max_steps r = StepLimit <-> max_steps <= step r).
Proof.
  unfold verdict. destruct (Z.geb_spec (step r) max_steps).
  - split; split; try done; try lia.
  - repeat case_bool_decide; split; split; try done; try lia;
      intros [? ?]; done.
Qed.

(** C1 (violated by the code): [accept_in_one] is valid and accepts the
    empty input with its first transition.  With a limit of one step the
    loop is left in the accepting state, the accepting configuration is
    the last of the trace, and yet the result is the step-limit one;
    with a limit of two steps the same run is [Accepted]. *)
Theorem accept_at_step_limit :
  valid accept_in_one
  /\ (exists r, run_state accept_in_one [] 1 = Ok r
                /\ state r = qaccept accept_in_one /\ step r = 1)
  /\ run accept_in_one [] 1 = Ok ([py "q0⊔"; py "⊔qa⊔"], StepLimit)
  /\ run accept_in_one [] 2 = Ok ([py "q0⊔"; py "⊔qa⊔"], Accepted).
Proof.
  split; [by vm_compute|]. split; [|split; by vm_compute].
  eexists. split; [by vm_compute|]. by vm_compute.
Qed.

(** ** C2: a missing transition *)

Lemma get_configuration_blank state :
  get_configuration [blank] state 0 = ([blank], fmt state ++ blank).
Proof. reflexivity. Qed.

Lemma iteration_missing M r a :
  current_symbol r = Some a ->
  lookup_delta M (state r) a = None ->
  exists r', iteration M r = Ok (Break r').
Proof.
  unfold current_symbol, iteration.
  destruct (extend _ _) as [t h]. intros -> ->. eauto.
Qed.

(** C2 (as stated, refuted): [starts_accepting] is valid and has no
    transition for its initial state and the blank, yet on the empty
    input the run is [Accepted] and the trace holds the initial snapshot
    only: the loop body is never entered. *)
Lemma starts_accepting_not_rejected :
  valid starts_accepting
  /\ lookup_delta starts_accepting (q0 starts_accepting) blank = None
  /\ run starts_accepting [] 10000 = Ok ([py "qa⊔"], Accepted).
Proof. repeat split; by vm_compute. Qed.

(** C2 (amended): for a valid specification, whenever a pass through the
    loop body of a run finds no transition for the current state and the
    symbol under the head, nothing is raised: the state becomes the
    rejecting state, the step counter and the (extended) tape are left as
    they are, the configuration with the rejecting state is appended to
    the trace, the loop ends and the run returns [Rejected].  In
    particular, when the initial state is neither the accepting nor the
    rejecting state, the step limit is at least one and there is no
    transition for the initial state and the blank, the run on the empty
    input returns [Rejected] with exactly one configuration after the
    initial one. *)
Theorem missing_transition_rejects M (Hvalid : valid M) :
  (forall input_string max_steps r a,
      reachable M input_string max_steps r ->
      running M max_steps r = true ->
      current_symbol r = Some a ->
      lookup_delta M (state r) a = None ->
      exists r',
        iteration M r = Ok (Break r')
        /\ state r' = qreject M
        /\ step r' = step r
        /\ (tape r', head r') = extend (tape r) (head r)
        /\ configurations r'
           = configurations r
             ++ [snd (get_configuration (tape r') (qreject M) (head r'))]
        /\ run_state M input_string max_steps = Ok r'
        /\ run M input_string max_steps = Ok (configurations r', Rejected))
  /\ (forall max_steps,
        1 <= max_steps ->
        q0 M <> qaccept M ->
        q0 M <> qreject M ->
        lookup_delta M (q0 M) blank = None ->
        run M [] max_steps
        = Ok ([fmt (q0 M) ++ blank; fmt (qreject M) ++ blank], Rejected)).
Proof.
  assert (forall input_string max_steps r a,
      reachable M input_string max_steps r ->
      running M max_steps r = true ->
      current_symbol r = Some a ->
      lookup_delta M (state r) a = None ->
      exists r',
        iteration M r = Ok (Break r')
        /\ state r' = qreject M
        /\ step r' = step r
        /\ (tape r', head r') = extend (tape r) (head r)
        /\ configurations r'
           = configurations r
             ++ [snd (get_configuration (tape r') (qreject M) (head r'))]
        /\ run_state M input_string max_steps = Ok r'
        /\ run M input_string max_steps = Ok (configurations r', Rejected))
    as Hgen.
  { intros input_string max_steps r a Hreach Hrun Ha Hnone.
    destruct (iteration_missing M r a Ha Hnone) as [r' Hit].
    exists r'. split; [done|].
    destruct (iteration_break _ _ _ Hit) as (Hstep & Hstate & Hext & Hcfg & _).
    do 4 (split; [done|]).
    assert (exec M max_steps r 0 Missing r') as Hex by by constructor.
    destruct (reachable_exec _ _ _ _ Hreach _ _ _ Hex) as (k0 & e0 & Hex0).
    pose proof (exec_run_state _ _ _ _ _ _ Hex0) as Hrs.
    split; [done|]. rewrite (run_of_run_state _ _ _ _ Hrs). do 2 f_equal.
    unfold verdict. apply running_step in Hrun.
    destruct (Z.geb_spec (step r') max_steps); [lia|].
    rewrite Hstate. pose proof (valid_accept_reject M Hvalid).
    rewrite bool_decide_eq_false_2 by congruence.
    by rewrite bool_decide_eq_true_2. }
  split; [exact Hgen|].
  intros max_steps Hmax Hna Hnr Hnone.
  destruct (Hgen [] max_steps (start M []) blank) as (r' & Hit & _ & _ & Hext & Hcfg & _ & Hrun).
  - constructor.
  - unfold running, start. simpl.
    rewrite !bool_decide_eq_false_2 by done. simpl. lia.
  - reflexivity.
  - exact Hnone.
  - rewrite Hrun. do 2 f_equal. rewrite Hcfg.
    change (extend (tape (start M [])) (head (start M []))) with ([blank], 0) in Hext.
    injection Hext as -> ->. reflexivity.
Qed.

Lemma missing_transition_rejects_witness :
  run no_moves [] 5 = Ok ([py "q0⊔"; py "qr⊔"], Rejected).
Proof.
  apply (proj2 (missing_transition_rejects no_moves ltac:(vm_compute; reflexivity)) 5).
  - lia.
  - vm_compute. discriminate.
  - vm_compute. discriminate.
  - vm_compute. reflexivity.
Defined.

(** ** Passes *)

Lemma pass_advance n M max_steps r :
  rtc (pass M max_steps) r (advance n M max_steps r).
Proof.
  revert r. induction n as [|n IH]; intros r; simpl; [constructor|].
  destruct (running M max_steps r) eqn:Hrun; [|constructor].
  destruct (iteration M r) as [c| |] eqn:Hit; try constructor.
  eapply rtc_l; [|apply IH]. split; eauto.
Qed.

Lemma reachable_rtc M input_string max_steps r r' :
  reachable M input_string max_steps r ->
  rtc (pass M max_steps) r r' ->
  reachable M input_string max_steps r'.
Proof.
  intros Hr Hrtc. induction Hrtc as [|r r1 r' (Hrun & c & Hit & ->) _ IH]; [done|].
  apply IH. by econstructor.
Qed.

Lemma reachable_advance n M input_string max_steps :
  reachable M input_string max_steps
    (advance n M max_steps (start M input_string)).
Proof.
  eapply reachable_rtc; [constructor|apply pass_advance].
Qed.

Lemma pass_grows M max_steps r r' :
  rtc (pass M max_steps) r r' -> (length (tape r) <= length (tape r'))%nat.
Proof.
  induction 1 as [|r r1 r' (_ & c & Hit & ->) _ IH]; [done|].
  apply iteration_grows in Hit. lia.
Qed.

Lemma reachable_from_start M input_string max_steps r :
  reachable M input_string max_steps r ->
  rtc (pass M max_steps) (start M input_string) r.
Proof.
  induction 1 as [|r c _ IH Hrun Hit]; [constructor|].
  eapply rtc_r; [exact IH|]. split; eauto.
Qed.

(** ** C7: the live tape *)

(** The callee does pop the list it is given: a caller that passed the
    tape itself would lose its trailing blanks. *)
Example get_configuration_pops :
  fst (get_configuration [py "a"; blank; blank] (Some (py "q")) 0) = [py "a"].
Proof. reflexivity. Qed.

(** C7: between any two points of a run, the later tape is at least as
    long as the earlier one, and both are at least as long as the tape
    the run started with: the trimming done for a configuration acts on
    the copy handed to [get_configuration], whose content is dropped. *)
Theorem live_tape_never_shrinks M input_string max_steps r r' :
  reachable M input_string max_steps r ->
  rtc (pass M max_steps) r r' ->
  (length (tape (start M input_string)) <= length (tape r))%nat
  /\ (length (tape r) <= length (tape r'))%nat
  /\ (length (fst (get_configuration (tape r') (state r') (head r')))
      <= length (tape r'))%nat.
Proof.
  intros Hr Hrtc. split; [|split].
  - by apply (pass_grows M max_steps), reachable_from_start.
  - by apply (pass_grows M max_steps).
  - simpl. unfold trim. generalize (length (tape r')) at 1 as n.
    generalize (tape r') as t. intros t n. revert t.
    induction n as [|n IH]; intros t; simpl; [done|].
    destruct (_ && _); [|done].
    etransitivity; [apply IH|]. destruct t using rev_ind; [done|].
    rewrite removelast_last, length_app. lia.
Qed.

Lemma live_tape_never_shrinks_witness :
  (length (tape (advance 5 ends_in_one 10000 (start ends_in_one (py "0101"))))
   <= length (tape (advance 6 ends_in_one 10000 (start ends_in_one (py "0101")))))%nat.
Proof.
  refine (proj1 (proj2 (live_tape_never_shrinks ends_in_one (py "0101") 10000
                          (advance 5 ends_in_one 10000 (start ends_in_one (py "0101")))
                          (advance 6 ends_in_one 10000 (start ends_in_one (py "0101")))
                          _ _))).
  - apply reachable_advance.
  - apply (pass_advance 1 ends_in_one 10000
             (advance 5 ends_in_one 10000 (start ends_in_one (py "0101")))).
Defined.

(** ** C8: the head stays on the tape *)

Lemma iteration_continue M r r' :
  wf r ->
  iteration M r = Ok (Continue r') ->
  exists a q b d,
    current_symbol r = Some a
    /\ lookup_delta M (state r) a = Some (q, b, d)
    /\ state r' = Some q
    /\ (tape r', head r')
       = move (<[Z.to_nat (head r):=b]> (fst (extend (tape r) (head r))))
              (head r) d.
Proof.
  unfold wf, iteration, current_symbol. intros Hwf.
  pose proof (extend_in_range _ _ Hwf) as He.
  destruct (extend _ _) as [t h] eqn:Het.
  pose proof (extend_bounds _ _ _ _ Hwf Het) as Hh.
  assert (h = head r) as -> by congruence.
  destruct (getitem t (head r)) as [a|]; [|done].
  destruct (lookup_delta _ _ _) as [[[q b] d]|] eqn:Hd; [|done].
  rewrite setitem_in_range by done.
  destruct (move _ _ d) as [t' h'] eqn:Hm.
  intros [= <-]. exists a, q, b, d. simpl. rewrite Hm. by repeat split.
Qed.

(** C8: at every point of a run where the loop body starts, the head is
    at most one cell past the right end of the tape; the extension that
    precedes the read leaves the head where it is and appends exactly
    one blank when the head is past the end, nothing otherwise; the read
    then happens inside the tape.  When the pass applies a transition,
    a left move from cell 0 inserts one blank at the front and puts the
    head on it, a right move only adds one to the head (the cell it may
    be missing is appended by the extension of the next pass), and the
    head is again at most one cell past the end. *)
Theorem head_within_tape M input_string max_steps r :
  reachable M input_string max_steps r ->
  0 <= head r <= Z.of_nat (length (tape r))
  /\ (exists tape' a,
        extend (tape r) (head r) = (tape', head r)
        /\ tape' = (if bool_decide (head r = Z.of_nat (length (tape r)))
                    then tape r ++ [blank] else tape r)
        /\ 0 <= head r < Z.of_nat (length tape')
        /\ current_symbol r = Some a
        /\ tape' !! Z.to_nat (head r) = Some a
        /\ forall r',
             iteration M r = Ok (Continue r') ->
             exists q b d,
               lookup_delta M (state r) a = Some (q, b, d)
               /\ (tape r', head r')
                  = (let written := <[Z.to_nat (head r):=b]> tape' in
                     if bool_decide (d = py "R") then (written, head r + 1)
                     else if bool_decide (d = py "L") then
                       if bool_decide (head r = 0) then (blank :: written, 0)
                       else (written, head r - 1)
                     else (written, head r))
               /\ 0 <= head r' <= Z.of_nat (length (tape r'))).
Proof.
  intros Hr. pose proof (reachable_wf _ _ _ _ Hr) as Hwf.
  split; [exact Hwf|].
  pose proof (extend_in_range _ _ Hwf) as He.
  pose proof (extend_bounds _ _ _ _ Hwf He) as Hh.
  destruct (getitem_in_range _ _ Hh) as (a & Ha & Hl).
  eexists _, a. split; [exact He|]. split; [reflexivity|].
  split; [exact Hh|]. split; [by unfold current_symbol; rewrite He|].
  split; [exact Hl|].
  intros r' Hit.
  destruct (iteration_continue _ _ _ Hwf Hit) as (a' & q & b & d & Ha' & Hd & _ & Hm).
  unfold current_symbol in Ha'. rewrite He, Ha in Ha'. injection Ha' as <-.
  exists q, b, d. split; [exact Hd|].
  rewrite He in Hm. simpl fst in Hm. split.
  - rewrite Hm. unfold move. cbv zeta.
    repeat case_bool_decide; try done;
      destruct (Z.ltb_spec (head r - 1) 0); (done || lia).
  - eapply move_bounds; [|symmetry; exact Hm]. by rewrite length_insert.
Qed.

Lemma head_within_tape_witness :
  0 <= head (advance 4 ends_in_one 10000 (start ends_in_one (py "0101")))
    <= Z.of_nat (length (tape (advance 4 ends_in_one 10000
                                 (start ends_in_one (py "0101"))))).
Proof.
  exact (proj1 (head_within_tape ends_in_one (py "0101") 10000 _
                  (reachable_advance 4 ends_in_one (py "0101") 10000))).
Defined.

(** After four passes on [0101] the head is one past the end. *)
Example head_past_the_end :
  let r := advance 4 ends_in_one 10000 (start ends_in_one (py "0101")) in
  (head r, length (tape r)) = (4, 4%nat)
  /\ extend (tape r) (head r) = (py_list (py "0101") ++ [blank], 4).
Proof. by vm_compute. Qed.

(** ** C10: the rejecting pass is not a step *)

(** C10: a run that leaves its loop through a missing transition after
    [k] transitions were applied ends with the step counter at [k], which
    is below the limit; the pass that rejects leaves the counter as it
    found it. *)
Theorem rejection_not_counted M input_string max_steps k r :
  exec M max_steps (start M input_string) k Missing r ->
  step r = Z.of_nat k
  /\ step r < max_steps
  /\ run_state M input_string max_steps = Ok r
  /\ (forall r0 r1, iteration M r0 = Ok (Break r1) -> step r1 = step r0).
Proof.
  intros Hex. split; [|split; [|split]].
  - apply exec_step in Hex. simpl in Hex. lia.
  - by apply exec_missing in Hex as [_ ?].
  - by eapply exec_run_state.
  - intros r0 r1 Hit. by apply iteration_break in Hit as [? _].
Qed.

Lemma rejection_not_counted_witness :
  step (advance 2 ends_in_one 10000 (start ends_in_one [])) = 1.
Proof.
  refine (proj1 (rejection_not_counted ends_in_one [] 10000 1
                   (advance 2 ends_in_one 10000 (start ends_in_one [])) _)).
  eapply exec_continue.
  - vm_compute. reflexivity.
  - vm_compute. reflexivity.
  - apply exec_break.
    + vm_compute. reflexivity.
    + vm_compute. reflexivity.
Defined.

(** ** C6: determinism *)

Lemma run_runs M input_string max_steps out :
  run M input_string max_steps = Ok out -> runs M input_string max_steps out.
Proof.
  unfold run, run_state.
  destruct (loop _ _ _ _) as [r| |] eqn:Hl; try done.
  intros [= <-]. apply loop_exec in Hl as (k & e & Hex). by exists k, e, r.
Qed.

(** C6: whatever two executions of the loop on the same specification,
    input and step limit produce, they produce the same trace and the
    same result, and it is what [run] returns. *)
Theorem run_deterministic M input_string max_steps out1 out2 :
  runs M input_string max_steps out1 ->
  runs M input_string max_steps out2 ->
  out1 = out2
  /\ run M input_string max_steps = Ok out1
  /\ result_text (snd out1) = result_text (snd out2).
Proof.
  intros (k1 & e1 & r1 & Hex1 & ->) (k2 & e2 & r2 & Hex2 & ->).
  destruct (exec_deterministic _ _ _ _ _ _ _ _ _ Hex1 Hex2) as (_ & _ & <-).
  split; [done|]. split; [|done].
  apply run_of_run_state. by eapply exec_run_state.
Qed.

Lemma run_deterministic_witness :
  run ends_in_one (py "0100") 10000
  = Ok ([py "scan0100"; py "0scan100"; py "01scan00"; py "010scan0";
         py "0100scan⊔"; py "010back0"; py "0100no⊔"], Rejected).
Proof.
  refine (proj1 (proj2 (run_deterministic ends_in_one (py "0100") 10000 _ _ _ _))).
  - apply run_runs. vm_compute. reflexivity.
  - apply run_runs. vm_compute. reflexivity.
Defined.

(** ** C4: which configurations are kept *)

Lemma capture_text tape state head configurations :
  capture tape state head configurations
  = configurations ++ [snd (get_configuration tape state head)].
Proof. unfold capture. by destruct (get_configuration _ _ _). Qed.

Lemma iteration_continue_configurations M r r' :
  iteration M r = Ok (Continue r') ->
  configurations r'
  = configurations r ++ (if keep M (snap r') then [text (snap r')] else []).
Proof.
  unfold iteration.
  destruct (extend _ _) as [t h].
  destruct (getitem t h); [|done].
  destruct (lookup_delta _ _ _) as [[[q a] d]|]; [|done].
  destruct (setitem t h a); [|done].
  destruct (move _ h d) as [t' h'].
  intros [= <-]. unfold keep, snap, sampled. simpl.
  destruct (_ || _); [apply capture_text|by rewrite app_nil_r].
Qed.

Lemma iteration_break_configurations M r r' :
  iteration M r = Ok (Break r') ->
  configurations r' = configurations r ++ [text (snap r')]
  /\ keep M (snap r') = true.
Proof.
  intros Hit. apply iteration_break in Hit as (_ & Hq & _ & Hcfg & _).
  unfold keep, snap, terminal. simpl. rewrite Hq. split; [done|].
  rewrite (bool_decide_eq_true_2 (qreject M = qreject M)) by done.
  by rewrite !orb_true_r.
Qed.

Lemma history_configurations fuel M max_steps r r' :
  loop fuel M max_steps r = Ok r' ->
  configurations r'
  = configurations r
    ++ (text <$> List.filter (keep M) (history fuel M max_steps r)).
Proof.
  revert r. induction fuel as [|fuel IH]; intros r; simpl;
    destruct (running M max_steps r); try done;
    try (intros [= <-]; by rewrite app_nil_r).
  destruct (iteration M r) as [[r1|r1]| |] eqn:Hit; try done.
  - intros Hl. rewrite (IH _ Hl), (iteration_continue_configurations _ _ _ Hit).
    simpl. destruct (keep M (snap r1)); simpl.
    + by rewrite <- app_assoc.
    + by rewrite app_nil_r.
  - intros [= <-]. apply iteration_break_configurations in Hit as [-> Hk].
    simpl. by rewrite Hk.
Qed.

Lemma loop_step_le fuel M max_steps r r' :
  loop fuel M max_steps r = Ok r' -> step r <= step r'.
Proof.
  intros (k & e & Hex)%loop_exec. apply exec_step in Hex. lia.
Qed.

Lemma history_indices fuel M max_steps r r' :
  loop fuel M max_steps r = Ok r' ->
  exists extra,
    index <$> history fuel M max_steps r
    = seqZ (step r + 1) (step r' - step r) ++ extra
    /\ (extra = [] \/ extra = [step r'] /\ state r' = qreject M).
Proof.
  revert r. induction fuel as [|fuel IH]; intros r; simpl;
    destruct (running M max_steps r); try done;
    try (intros [= <-]; exists []; rewrite Z.sub_diag; by auto).
  destruct (iteration M r) as [[r1|r1]| |] eqn:Hit; try done.
  - intros Hl. destruct (IH _ Hl) as (extra & Hidx & Hextra).
    pose proof (loop_step_le _ _ _ _ _ Hl) as Hle.
    apply iteration_continue_step in Hit.
    exists extra. split; [|done]. rewrite fmap_cons, Hidx.
    rewrite (seqZ_cons (step r + 1)) by lia. simpl. rewrite Hit.
    do 3 f_equal; lia.
  - intros [= <-]. apply iteration_break in Hit as (Hs & Hq & _).
    exists [step r1]. rewrite Hs, Z.sub_diag. simpl.
    split; [congruence|right; split; congruence].
Qed.

Lemma history_running fuel M max_steps r :
  history fuel M max_steps r <> [] -> running M max_steps r = true.
Proof. destruct fuel; simpl; by destruct (running M max_steps r). Qed.

Lemma history_terminal_last fuel M max_steps r i s :
  history fuel M max_steps r !! i = Some s ->
  terminal M (at_state s) = true ->
  S i = length (history fuel M max_steps r).
Proof.
  revert r i. induction fuel as [|fuel IH]; intros r i; simpl;
    destruct (running M max_steps r); try done.
  destruct (iteration M r) as [[r1|r1]| |] eqn:Hit; try done.
  - destruct i as [|i]; simpl.
    + intros [= <-] Hterm. simpl in Hterm.
      destruct (history fuel M max_steps r1) as [|s' l] eqn:Hh; [done|].
      assert (running M max_steps r1 = true) as Hrun
        by (apply (history_running fuel); by rewrite Hh).
      apply running_not_terminal in Hrun. congruence.
    + intros Hs Hterm. f_equal. by eapply IH.
  - destruct i as [|i]; simpl; [done|]. intros Hs. by destruct i.
Qed.

(** C4: the trace a run returns is its unsampled history (the initial
    snapshot, numbered 0, then the snapshot at the end of every pass
    through the loop body) filtered by the sampling policy: step index
    below 100, step index a multiple of 100, or halting state.  The
    history holds the step indices 0 to S in order, each once, S being
    the final step counter, followed by one more snapshot with index S
    when the run ends on a missing transition; a snapshot in a halting
    state can only be the last one. *)
Theorem trace_is_sampled_history M input_string max_steps :
  exists r,
    run_state M input_string max_steps = Ok r
    /\ run M input_string max_steps
       = Ok (text <$> List.filter (keep M) (full_history M input_string max_steps),
             verdict M max_steps r)
    /\ (exists extra,
          index <$> full_history M input_string max_steps
          = seqZ 0 (step r + 1) ++ extra
          /\ (extra = [] \/ extra = [step r] /\ state r = qreject M))
    /\ (forall i s,
          full_history M input_string max_steps !! i = Some s ->
          terminal M (at_state s) = true ->
          S i = length (full_history M input_string max_steps)).
Proof.
  destruct (run_state_exec M input_string max_steps) as (k & e & r & Hex & Hr).
  exists r. split; [done|]. unfold run_state in Hr. split; [|split].
  - unfold run, run_state. rewrite Hr. do 2 f_equal.
    rewrite (history_configurations _ _ _ _ _ Hr). unfold full_history.
    simpl. unfold capture. simpl. reflexivity.
  - destruct (history_indices _ _ _ _ _ Hr) as (extra & Hidx & Hextra).
    pose proof (loop_step_le _ _ _ _ _ Hr) as Hle. simpl in Hle.
    exists extra. split; [|done]. unfold full_history.
    rewrite fmap_cons, Hidx. simpl.
    rewrite (seqZ_cons 0) by lia. simpl.
    do 3 f_equal; lia.
  - unfold full_history. intros [|i] s; simpl.
    + intros [= <-] Hterm. simpl in Hterm.
      destruct (history _ _ _ _) as [|s' l] eqn:Hh; [done|].
      assert (running M max_steps (start M input_string) = true) as Hrun
        by (apply (history_running (Z.to_nat max_steps)); by rewrite Hh).
      apply running_not_terminal in Hrun. simpl in Hrun. congruence.
    + intros Hs Hterm. f_equal. by eapply history_terminal_last.
Qed.

(** A limit of 50 passes on a machine that never halts: the last
    snapshot kept is the one of step 50. *)
Example runs_right_50 :
  (fun out => (length (fst out), snd out))
    <$> (match run runs_right (py "0") 50 with Ok x => Some x | _ => None end)
  = Some (51%nat, StepLimit)
  /\ last (index <$> List.filter (keep runs_right) (full_history runs_right (py "0") 50))
     = Some 50.
Proof. by vm_compute. Qed.

(** With a limit of 250 the trace keeps steps 0 to 99, then 100 and 200. *)
Example runs_right_250 :
  index <$> List.filter (keep runs_right) (full_history runs_right (py "0") 250)
  = seqZ 0 100 ++ [100; 200].
Proof. by vm_compute. Qed.

(** ** C5: reading a configuration back *)

Lemma pop_blanks_prefix n t :
  exists m, t = pop_blanks n t ++ replicate m blank.
Proof.
  revert t. induction n as [|n IH]; intros t; simpl.
  - exists 0%nat. by rewrite app_nil_r.
  - destruct (_ && _) eqn:Hc; [|exists 0%nat; by rewrite app_nil_r].
    apply andb_prop in Hc as [_ Hl%bool_decide_eq_true].
    destruct t as [|x t] using rev_ind; [done|]. clear IHt.
    rewrite last_snoc in Hl. injection Hl as ->.
    rewrite removelast_last. destruct (IH t) as [m Hm].
    exists (S m). rewrite Hm at 1. rewrite <- app_assoc. f_equal.
    by rewrite replicate_S_end.
Qed.

Lemma pop_blanks_stops n t :
  (length t <= n)%nat ->
  (1 <? length (pop_blanks n t))%nat
  && bool_decide (last (pop_blanks n t) = Some blank) = false.
Proof.
  revert t. induction n as [|n IH]; intros t Hn; simpl.
  - destruct t; [done|simpl in Hn; lia].
  - destruct ((1 <? length t)%nat && bool_decide (last t = Some blank)) eqn:Hc;
      [|done].
    apply IH. destruct t as [|x t] using rev_ind; [done|].
    rewrite removelast_last. rewrite length_app in Hn. simpl in Hn. lia.
Qed.

Lemma pop_blanks_nonempty n t : t <> [] -> pop_blanks n t <> [].
Proof.
  revert t. induction n as [|n IH]; intros t Ht; simpl; [done|].
  destruct (_ && _) eqn:Hc; [|done].
  apply andb_prop in Hc as [Hlen _]. apply IH.
  destruct t as [|x t] using rev_ind; [done|].
  rewrite removelast_last. rewrite length_app in Hlen. simpl in Hlen.
  destruct t; [simpl in Hlen; done|done].
Qed.

(** The tape a configuration is printed from. *)
Lemma shown_trim t :
  let T := shown (trim t) in
  T <> []
  /\ (exists n m, t ++ replicate n blank = T ++ replicate m blank)
  /\ (forall l, T = l ++ [blank] -> l = [])
  /\ (forall sym, sym 8852%N -> cells_of sym t -> cells_of sym T).
Proof.
  unfold shown, trim.
  destruct (pop_blanks_prefix (length t) t) as [m Hm].
  pose proof (pop_blanks_stops (length t) t ltac:(done)) as Hstop.
  destruct (decide (pop_blanks (length t) t = [])) as [Hnil|Hnil];
    [rewrite bool_decide_eq_true_2 by done
    |rewrite bool_decide_eq_false_2 by done]; simpl.
  - split; [done|]. split; [|split].
    + destruct t as [|x t]; [by exists 1%nat, 0%nat|].
      by apply (pop_blanks_nonempty (length (x :: t))) in Hnil.
    + intros [|y l] Hl; [done|]. by destruct l.
    + intros sym Hb _. constructor; [by exists 8852%N|constructor].
  - split; [done|]. split; [|split].
    + exists 0%nat, m. by rewrite app_nil_r.
    + intros l Hl. rewrite Hl in Hstop. rewrite last_snoc, length_app in Hstop.
      rewrite bool_decide_eq_true_2, andb_true_r in Hstop by done.
      destruct l; [done|]. apply Nat.ltb_ge in Hstop. simpl in Hstop. lia.
    + intros sym _ Hc. unfold cells_of in *. rewrite Hm in Hc.
      by apply Forall_app in Hc as [? _].
Qed.

Lemma cells_join sym T :
  cells_of sym T -> T = py_list (join T) /\ Forall sym (join T).
Proof.
  induction 1 as [|cell T (c & -> & Hc) _ [IH1 IH2]]; [done|].
  simpl. split; [by rewrite <- IH1|by constructor].
Qed.

Lemma join_py_list s : join (py_list s) = s.
Proof. induction s as [|c s IH]; [done|]. simpl. by rewrite IH. Qed.

Lemma slice_bound_in_range n h :
  0 <= h <= Z.of_nat n -> slice_bound n h = Z.to_nat h.
Proof.
  intros Hh. unfold slice_bound. destruct (Z.ltb_spec h 0); lia.
Qed.

Lemma parts_py_list s h :
  0 <= h <= Z.of_nat (length s) ->
  left_part (py_list s) h = take (Z.to_nat h) s
  /\ right_part (py_list s) h
     = (if bool_decide (drop (Z.to_nat h) s = []) then blank
        else drop (Z.to_nat h) s).
Proof.
  intros Hh. unfold left_part, right_part, slice_to, slice_from, py_list.
  rewrite length_fmap, slice_bound_in_range by done.
  rewrite <- fmap_take, <- fmap_drop.
  by rewrite !(join_py_list).
Qed.

Lemma blank_or_drop (sym : N -> Prop) k (s : str) :
  sym 8852%N -> Forall sym s ->
  Forall sym (if bool_decide (drop k s = []) then blank else drop k s).
Proof.
  intros Hb Hs. destruct (bool_decide _); [|by apply Forall_drop].
  constructor; [exact Hb|constructor].
Qed.

(** A state between two words of tape characters can be cut out in one
    way only. *)
Lemma state_unique sym (l1 q1 r1 l2 q2 r2 : str) :
  Forall sym l1 -> Forall sym l2 ->
  starts_outside sym q1 -> starts_outside sym q2 ->
  unconfusable sym q1 q2 ->
  Forall sym r1 -> Forall sym r2 ->
  l1 ++ q1 ++ r1 = l2 ++ q2 ++ r2 -> l1 = l2 /\ q1 = q2 /\ r1 = r2.
Proof.
  intros Hl1. revert l2.
  induction Hl1 as [|a l1 Ha _ IH]; intros l2 Hl2 Hq1 Hq2 Hu Hr1 Hr2.
  - destruct Hl2 as [|a' l2 Ha' _]; simpl.
    + intros Heq. split; [done|].
      apply app_eq_inv in Heq as [(w & Hq & Hr)|(w & Hq & Hr)].
      * assert (w = []) as ->.
        { apply Hu; [|by left]. rewrite Hr in Hr2.
          by apply Forall_app in Hr2 as [? _]. }
        rewrite app_nil_r in Hq. by subst.
      * assert (w = []) as ->.
        { apply Hu; [|by right]. rewrite Hr in Hr1.
          by apply Forall_app in Hr1 as [? _]. }
        rewrite app_nil_r in Hq. by subst.
    + destruct q1 as [|c q1]; [done|]. simpl in *. by intros [= -> _].
  - destruct Hl2 as [|a' l2 Ha' Hl2]; simpl.
    + destruct q2 as [|c q2]; [done|]. simpl in *. by intros [= -> _].
    + intros [= -> Heq].
      destruct (IH _ Hl2 Hq1 Hq2 Hu Hr1 Hr2 Heq) as (-> & -> & ->). done.
Qed.

Lemma is_prefix_app (q r : str) : is_prefix q (q ++ r) = true.
Proof.
  induction q as [|c q IH]; [done|]. simpl.
  by rewrite bool_decide_eq_true_2.
Qed.

Lemma split_at_state sym (l q r : str) :
  Forall sym l -> starts_outside sym q ->
  split_at_marker q (l ++ q ++ r) = Some (l, r).
Proof.
  intros Hl Hq. induction Hl as [|a l Ha _ IH]; simpl.
  - destruct q as [|c q]; [done|]. simpl.
    rewrite bool_decide_eq_true_2, is_prefix_app by done. simpl.
    by rewrite drop_app_length.
  - destruct q as [|c q]; [done|]. simpl in Hq.
    simpl. rewrite bool_decide_eq_false_2 by (intros ->; done). simpl.
    simpl in IH. by rewrite IH.
Qed.

(** A state is never itself followed by a non-empty word. *)
Lemma unconfusable_same sym (q : str) : unconfusable sym q q.
Proof.
  intros w _ [H|H]; apply (f_equal length) in H; rewrite length_app in H;
    destruct w; (done || (simpl in H; lia)).
Qed.

(** C5 (as stated, refuted): three pairs of snapshots that differ, also
    up to trailing blanks, and print the same configuration, the head
    being on the tape in each.  The printer writes the left part, the
    state and the right part one after the other with nothing between
    them, so: a state that is another state followed by a tape character
    ([q], [q0] and the symbol [0]) moves the cut between state and
    right part; a state that is a tape symbol lets the head stand at
    either of two cells; a cell of two characters prints as two cells
    do. *)
Lemma configuration_collisions :
  (~ snapshot_equiv ([py "0"; py "1"], Some (py "q"), 0)
                    ([py "1"], Some (py "q0"), 0)
   /\ snd (get_configuration [py "0"; py "1"] (Some (py "q")) 0)
      = snd (get_configuration [py "1"] (Some (py "q0")) 0))
  /\ (~ snapshot_equiv ([py "0"; py "1"], Some (py "0"), 0)
                       ([py "0"; py "1"], Some (py "0"), 1)
      /\ snd (get_configuration [py "0"; py "1"] (Some (py "0")) 0)
         = snd (get_configuration [py "0"; py "1"] (Some (py "0")) 1))
  /\ (~ snapshot_equiv ([py "ab"], Some (py "q"), 0)
                       ([py "a"; py "b"], Some (py "q"), 0)
      /\ snd (get_configuration [py "ab"] (Some (py "q")) 0)
         = snd (get_configuration [py "a"; py "b"] (Some (py "q")) 0)).
Proof.
  repeat split; try reflexivity.
  - intros (_ & Hq & _). discriminate Hq.
  - intros (_ & _ & Hh). discriminate Hh.
  - intros ((n & m & Ht) & _). discriminate Ht.
Qed.

(** A fourth collision is of another kind.  The trailing blanks are
    popped before the tape is cut at the head, so a head two cells past
    the last non-blank cell is printed like a head one cell past it: the
    blank between them is lost, and with it the place of the head.  The
    statement below says nothing of such heads. *)
Example head_past_trimmed_tape :
  ~ snapshot_equiv ([py "a"; blank; blank], Some (py "q"), 2)
                   ([py "a"; blank], Some (py "q"), 1)
  /\ snd (get_configuration [py "a"; blank; blank] (Some (py "q")) 2) = py "aq⊔"
  /\ snd (get_configuration [py "a"; blank] (Some (py "q")) 1) = py "aq⊔".
Proof.
  repeat split; try reflexivity.
  intros (_ & _ & Hh). discriminate Hh.
Qed.

(** It happens in a run: after the first step of
    [runs_right] on [0] the trace repeats one string while the head
    keeps moving. *)
Example runs_right_repeats :
  run runs_right (py "0") 3
  = Ok ([py "q00"; py "0q0⊔"; py "0q0⊔"; py "0q0⊔"], StepLimit)
  /\ head <$> [advance 1 runs_right 3 (start runs_right (py "0"));
               advance 2 runs_right 3 (start runs_right (py "0"));
               advance 3 runs_right 3 (start runs_right (py "0"))]
     = [1; 2; 3].
Proof. by vm_compute. Qed.

(** C5 (amended): take tapes whose cells are single characters, states
    that open with a character no tape cell uses (the blank counts as a
    tape character) and of which neither is the other followed by tape
    characters, and heads that lie on the tape left after trimming or
    directly behind it.  Then two snapshots that print the same
    configuration are equal up to trailing blanks, and cutting a printed
    configuration at the first occurrence of its state gives back the
    left part and the right part it was built from. *)
Theorem get_configuration_injective (sym : N -> Prop) t1 q1 h1 t2 q2 h2 :
  sym 8852%N ->
  cells_of sym t1 -> cells_of sym t2 ->
  starts_outside sym q1 -> starts_outside sym q2 ->
  unconfusable sym q1 q2 ->
  0 <= h1 <= Z.of_nat (length (shown (trim t1))) ->
  0 <= h2 <= Z.of_nat (length (shown (trim t2))) ->
  (snd (get_configuration t1 (Some q1) h1) = snd (get_configuration t2 (Some q2) h2) ->
   snapshot_equiv (t1, Some q1, h1) (t2, Some q2, h2))
  /\ split_at_marker q1 (snd (get_configuration t1 (Some q1) h1))
     = Some (left_part (shown (trim t1)) h1, right_part (shown (trim t1)) h1).
Proof.
  intros Hb Hc1 Hc2 Hq1 Hq2 Hu Hh1 Hh2. simpl.
  destruct (shown_trim t1) as (Hne1 & (n1 & m1 & He1) & Hlast1 & HT1).
  destruct (shown_trim t2) as (Hne2 & (n2 & m2 & He2) & Hlast2 & HT2).
  specialize (HT1 sym Hb Hc1). specialize (HT2 sym Hb Hc2).
  apply cells_join in HT1 as [HT1 Hs1]. apply cells_join in HT2 as [HT2 Hs2].
  revert Hne1 He1 Hlast1 HT1 Hs1 Hh1 Hne2 He2 Hlast2 HT2 Hs2 Hh2.
  generalize (shown (trim t1)) as T1. generalize (shown (trim t2)) as T2.
  intros T2 T1 Hne1 He1 Hlast1 HT1 Hs1 Hh1 Hne2 He2 Hlast2 HT2 Hs2 Hh2.
  set (s1 := join T1) in *. set (s2 := join T2) in *.
  assert (length T1 = length s1) as Hlen1
    by (rewrite HT1 at 1; apply length_fmap).
  assert (length T2 = length s2) as Hlen2
    by (rewrite HT2 at 1; apply length_fmap).
  rewrite Hlen1 in Hh1. rewrite Hlen2 in Hh2.
  destruct (parts_py_list s1 h1 Hh1) as [Hl1 Hr1].
  destruct (parts_py_list s2 h2 Hh2) as [Hl2 Hr2].
  rewrite <- HT1 in Hl1, Hr1. rewrite <- HT2 in Hl2, Hr2.
  assert (Forall sym (left_part T1 h1)) as Hsl1
    by (rewrite Hl1; by apply Forall_take).
  assert (Forall sym (left_part T2 h2)) as Hsl2
    by (rewrite Hl2; by apply Forall_take).
  assert (Forall sym (right_part T1 h1)) as Hsr1.
  { rewrite Hr1. by apply blank_or_drop. }
  assert (Forall sym (right_part T2 h2)) as Hsr2.
  { rewrite Hr2. by apply blank_or_drop. }
  split; [|by eapply split_at_state].
  intros Heq.
  destruct (state_unique sym _ _ _ _ _ _ Hsl1 Hsl2 Hq1 Hq2 Hu Hsr1 Hsr2 Heq)
    as (Hl & -> & Hr).
  rewrite Hl1, Hl2 in Hl. rewrite Hr1, Hr2 in Hr.
  assert (Z.to_nat h1 = Z.to_nat h2) as Hk.
  { apply (f_equal length) in Hl. rewrite !length_take in Hl. lia. }
  assert (h1 = h2) as <- by lia. clear Hk.
  assert (s1 = s2) as Hs.
  { rewrite <- (take_drop (Z.to_nat h1) s1), <- (take_drop (Z.to_nat h1) s2).
    rewrite Hl. f_equal. clear Hr1 Hr2 Hsr1 Hsr2 Heq.
    destruct (decide (drop (Z.to_nat h1) s1 = [])) as [Hd1|Hd1];
      destruct (decide (drop (Z.to_nat h1) s2 = [])) as [Hd2|Hd2];
      rewrite ?(bool_decide_eq_true_2 _ Hd1), ?(bool_decide_eq_true_2 _ Hd2),
        ?(bool_decide_eq_false_2 _ Hd1), ?(bool_decide_eq_false_2 _ Hd2) in Hr;
      try congruence; exfalso.
    - (* the first tape ends at the head, the second shows a blank there *)
      assert (T2 = py_list (take (Z.to_nat h1) s2) ++ [blank]) as HT2'.
      { rewrite HT2 at 1. rewrite <- (take_drop (Z.to_nat h1) s2) at 1.
        rewrite <- Hr. unfold py_list. by rewrite fmap_app. }
      apply Hlast2 in HT2'. apply Hne1. rewrite HT1.
      rewrite <- (take_drop (Z.to_nat h1) s1), Hd1, app_nil_r, Hl.
      exact HT2'.
    - assert (T1 = py_list (take (Z.to_nat h1) s1) ++ [blank]) as HT1'.
      { rewrite HT1 at 1. rewrite <- (take_drop (Z.to_nat h1) s1) at 1.
        rewrite Hr. unfold py_list. by rewrite fmap_app. }
      apply Hlast1 in HT1'. apply Hne2. rewrite HT2.
      rewrite <- (take_drop (Z.to_nat h1) s2), Hd2, app_nil_r, <- Hl.
      exact HT1'. }
  assert (T1 = T2) as <- by (rewrite HT1, HT2; by rewrite Hs).
  split; [|done].
  exists (n1 + m2)%nat, (n2 + m1)%nat.
  rewrite !replicate_add, !app_assoc, He1, He2, <- !app_assoc.
  f_equal. by rewrite <- !replicate_add, Nat.add_comm.
Qed.

(** State [q0] over the symbols [0], [1] and the blank, as in the
    machines of this file: [0q01] is read back. *)
Lemma get_configuration_injective_witness :
  snapshot_equiv ([py "0"; py "0"; py "1"; blank], Some (py "q0"), 1)
                 ([py "0"; py "0"; py "1"], Some (py "q0"), 1)
  /\ split_at_marker (py "q0") (py "0q001") = Some (py "0", py "01").
Proof.
  refine (let H := get_configuration_injective (fun c => c <> 113%N)
                     [py "0"; py "0"; py "1"; blank] (py "q0") 1
                     [py "0"; py "0"; py "1"] (py "q0") 1 _ _ _ _ _ _ _ _ in
          conj (proj1 H eq_refl) (proj2 H)).
  - discriminate.
  - repeat constructor; eexists; (split; [reflexivity|discriminate]).
  - repeat constructor; eexists; (split; [reflexivity|discriminate]).
  - intros H. apply H. reflexivity.
  - intros H. apply H. reflexivity.
  - intros w _ [H|H]; apply (f_equal length) in H; rewrite length_app in H;
      destruct w; try reflexivity; simpl in H; lia.
  - vm_compute. split; discriminate.
  - vm_compute. split; discriminate.
Defined.

(** Each hypothesis of the statement is needed: every collision above
    meets all of them but one.  The tape characters are taken to be all
    characters but the letter [q]; in the second collision the state is
    a tape symbol under any choice. *)
Example collisions_miss_one_hypothesis :
  let sym : N -> Prop := fun c => c <> 113%N in
  (cells_of sym [py "0"; py "1"] /\ cells_of sym [py "1"]
   /\ starts_outside sym (py "q") /\ starts_outside sym (py "q0")
   /\ ~ unconfusable sym (py "q") (py "q0"))
  /\ (forall sym' : N -> Prop, cells_of sym' [py "0"; py "1"] ->
      unconfusable sym' (py "0") (py "0") /\ ~ starts_outside sym' (py "0"))
  /\ (starts_outside sym (py "q") /\ unconfusable sym (py "q") (py "q")
      /\ cells_of sym [py "a"; py "b"] /\ ~ cells_of sym [py "ab"])
  /\ (cells_of sym [py "a"; blank; blank] /\ cells_of sym [py "a"; blank]
      /\ starts_outside sym (py "q") /\ unconfusable sym (py "q") (py "q")
      /\ 1 <= Z.of_nat (length (shown (trim [py "a"; blank])))
      /\ ~ 2 <= Z.of_nat (length (shown (trim [py "a"; blank; blank])))).
Proof.
  repeat split;
    try (repeat constructor; eexists; (split; [reflexivity|discriminate]));
    try (intros H; apply H; reflexivity);
    try apply unconfusable_same.
  - intros Hu. specialize (Hu (py "0")).
    discriminate Hu; [repeat constructor; discriminate|by right].
  - intros Hs. apply Hs. apply Forall_cons in H as [(c & [= <-] & Hc) _].
    exact Hc.
  - intros Hc. apply Forall_cons in Hc as [(c & Hc & _) _]. discriminate Hc.
  - vm_compute. discriminate.
Qed.

(** Any two states of [ends_in_one] or of [accept_in_one] can be told
    apart in a configuration over their tape symbols: they open with a
    letter and none is a prefix of another. *)
Example states_of_the_sample_machines (sym : N -> Prop) :
  (forall c, sym c -> c = 48%N \/ c = 49%N \/ c = 8852%N) ->
  Forall (starts_outside sym)
         [py "scan"; py "back"; py "yes"; py "no"; py "q0"; py "qa"; py "qr"]
  /\ unconfusable sym (py "q0") (py "qa")
  /\ unconfusable sym (py "scan") (py "back")
  /\ unconfusable sym (py "yes") (py "no").
Proof.
  intros Hsym. split.
  - repeat constructor; intros H%Hsym; vm_compute in H; decompose [or] H;
      discriminate.
  - repeat split; intros w _ [H|H]; vm_compute in H; discriminate H.
Qed.

(** * Further properties of the engine *)

Lemma exec_reachable M input_string max_steps r k e r' :
  reachable M input_string max_steps r ->
  exec M max_steps r k e r' ->
  reachable M input_string max_steps r'.
Proof.
  intros Hr Hex. induction Hex as [r Hrun|r r' Hrun Hit|r r' k e r'' Hrun Hit _ IH].
  - done.
  - by apply (reachable_next _ _ _ r (Break r')).
  - apply IH. by apply (reachable_next _ _ _ r (Continue r')).
Qed.

Lemma run_state_reachable M input_string max_steps r :
  run_state M input_string max_steps = Ok r ->
  reachable M input_string max_steps r.
Proof.
  intros (k & e & Hex)%loop_exec.
  eapply exec_reachable; [constructor|done].
Qed.

(** ** The step budget *)

(** X1: at every point of a run, and so at its end, the step counter
    lies between 0 and the limit (0 when the limit is negative): the
    engine never applies more than [max_steps] transitions. *)
Theorem step_counter_within_limit M input_string max_steps r :
  reachable M input_string max_steps r ->
  0 <= step r <= Z.max 0 max_steps.
Proof.
  induction 1 as [|r c _ IH Hrun Hit]; [simpl; lia|].
  apply running_step in Hrun. destruct c as [r'|r']; simpl.
  - apply iteration_continue_step in Hit. lia.
  - apply iteration_break in Hit as [-> _]. lia.
Qed.

Lemma step_counter_within_limit_witness :
  0 <= step (advance 7 runs_right 5 (start runs_right (py "0"))) <= Z.max 0 5.
Proof.
  exact (step_counter_within_limit runs_right (py "0") 5 _
           (reachable_advance 7 runs_right (py "0") 5)).
Defined.

(** X2: with a limit of zero or less the loop body is never entered:
    the trace is the initial configuration alone and the result is the
    step-limit one, even for a machine that starts in its accepting
    state. *)
Theorem no_budget_no_step M input_string max_steps :
  max_steps <= 0 ->
  run M input_string max_steps
  = Ok ([snd (get_configuration (tape (start M input_string)) (q0 M) 0)],
        StepLimit).
Proof.
  intros Hms. unfold run, run_state.
  assert (running M max_steps (start M input_string) = false) as Hrun.
  { unfold running. simpl. destruct (Z.ltb_spec 0 max_steps); [lia|].
    by rewrite andb_false_r. }
  destruct (Z.to_nat max_steps); simpl; rewrite Hrun; unfold verdict; simpl;
    destruct (Z.geb_spec 0 max_steps); try lia; by rewrite capture_text.
Qed.

Lemma no_budget_no_step_witness :
  run starts_accepting [] 0 = Ok ([py "qa⊔"], StepLimit).
Proof. apply (no_budget_no_step starts_accepting [] 0). lia. Defined.

(** X3: a machine whose initial state is its accepting state accepts
    every input without a step, whatever its transitions, as soon as
    the limit is positive; one whose initial state is its rejecting
    state (and not the accepting one) rejects every input likewise. *)
Theorem halting_initial_state M input_string max_steps :
  0 < max_steps ->
  (q0 M = qaccept M ->
   run M input_string max_steps
   = Ok ([snd (get_configuration (tape (start M input_string)) (q0 M) 0)],
         Accepted))
  /\ (q0 M = qreject M -> q0 M <> qaccept M ->
      run M input_string max_steps
      = Ok ([snd (get_configuration (tape (start M input_string)) (q0 M) 0)],
            Rejected)).
Proof.
  intros Hms. split.
  - intros Hq. unfold run, run_state.
    assert (running M max_steps (start M input_string) = false) as Hrun.
    { unfold running. simpl. by rewrite (bool_decide_eq_true_2 _ Hq). }
    destruct (Z.to_nat max_steps); simpl; rewrite Hrun; unfold verdict; simpl;
      destruct (Z.geb_spec 0 max_steps); try lia;
      by rewrite (bool_decide_eq_true_2 _ Hq), capture_text.
  - intros Hq Hne. unfold run, run_state.
    assert (running M max_steps (start M input_string) = false) as Hrun.
    { unfold running. simpl. rewrite (bool_decide_eq_true_2 _ Hq). simpl.
      by rewrite andb_false_r. }
    destruct (Z.to_nat max_steps); simpl; rewrite Hrun; unfold verdict; simpl;
      destruct (Z.geb_spec 0 max_steps); try lia;
      by rewrite (bool_decide_eq_false_2 _ Hne), (bool_decide_eq_true_2 _ Hq),
           capture_text.
Qed.

Lemma halting_initial_state_witness :
  run starts_accepting (py "0110") 10000 = Ok ([py "qa0110"], Accepted).
Proof.
  apply (proj1 (halting_initial_state starts_accepting (py "0110") 10000
                  ltac:(lia))).
  reflexivity.
Defined.

(** ** What the engine does not read *)

Lemma same_program_iteration M M' r :
  same_program M M' -> iteration M r = iteration M' r.
Proof.
  intros (Hd & _ & Ha & Hr). unfold iteration, lookup_delta, sampled, terminal.
  by rewrite Hd, Ha, Hr.
Qed.

Lemma same_program_loop fuel M M' max_steps r :
  same_program M M' -> loop fuel M max_steps r = loop fuel M' max_steps r.
Proof.
  intros HM.
  assert (forall x, running M max_steps x = running M' max_steps x) as Hrun.
  { intros x. unfold running. by destruct HM as (_ & _ & <- & <-). }
  revert r. induction fuel as [|fuel IH]; intros r; simpl; rewrite <- Hrun;
    [done|].
  rewrite <- (same_program_iteration M M' r HM).
  destruct (running M max_steps r); [|done].
  destruct (iteration M r) as [[r1|r1]| |]; [apply IH|done..].
Qed.

(** X4: a run reads the transitions and the three special states of the
    machine and nothing else: machines that agree on them give the same
    trace and result on every input, whatever their [Q], [Sigma] and
    [Gamma].  In particular the input is not checked against the input
    alphabet. *)
Theorem run_ignores_the_sets M M' input_string max_steps :
  same_program M M' ->
  run M input_string max_steps = run M' input_string max_steps.
Proof.
  intros HM. unfold run, run_state.
  assert (start M input_string = start M' input_string) as <-
    by (unfold start; by rewrite (proj1 (proj2 HM))).
  rewrite <- (same_program_loop _ M M' _ _ HM).
  destruct (loop _ _ _ _); [|done..].
  unfold verdict. destruct HM as (_ & _ & <- & <-). done.
Qed.

Lemma run_ignores_the_sets_witness :
  run ends_in_one (py "0121") 10000 = run ends_in_one_bare (py "0121") 10000.
Proof.
  apply (run_ignores_the_sets ends_in_one ends_in_one_bare (py "0121") 10000).
  repeat split; reflexivity.
Defined.

(** A symbol outside every alphabet is taken as it comes; here it has no
    transition and the run rejects on it. *)
Example foreign_symbol_in_input :
  run ends_in_one (py "0121") 10000
  = Ok ([py "scan0121"; py "0scan121"; py "01scan21"; py "01no21"], Rejected).
Proof. by vm_compute. Qed.

(** ** Space *)

Lemma iteration_grows_by_one M r c :
  wf r -> (1 <= length (tape r))%nat ->
  iteration M r = Ok c ->
  (length (tape (locals c)) <= length (tape r) + 1)%nat
  /\ head (locals c) <= head r + 1
  /\ match c with
     | Continue _ => True
     | Break r' => head r' = head r
     end.
Proof.
  intros Hwf Hlen Hit. destruct c as [r'|r']; simpl.
  - destruct (iteration_continue _ _ _ Hwf Hit) as (a & q & b & d & _ & _ & _ & Hm).
    rewrite (extend_in_range _ _ Hwf) in Hm. simpl fst in Hm.
    unfold wf in Hwf. revert Hm. unfold move.
    repeat case_bool_decide; try destruct (Z.ltb_spec (head r - 1) 0);
      intros [= -> ->]; split; try split; try done; list_len.
  - apply iteration_break in Hit as (_ & _ & Hext & _).
    rewrite (extend_in_range _ _ Hwf) in Hext.
    case_bool_decide; injection Hext as -> ->; split; try split; try done;
      list_len.
Qed.

Lemma start_tape_nonempty M input_string :
  (1 <= length (tape (start M input_string)))%nat.
Proof.
  unfold start. simpl. case_bool_decide; simpl; [lia|].
  destruct input_string; [done|]. simpl. lia.
Qed.

Lemma space_nonempty M input_string max_steps r :
  reachable M input_string max_steps r -> (1 <= length (tape r))%nat.
Proof.
  intros Hr. pose proof (reachable_from_start _ _ _ _ Hr) as Hrtc.
  apply pass_grows in Hrtc.
  pose proof (start_tape_nonempty M input_string). lia.
Qed.

(** X5: the space a run uses is bounded by its steps.  At every point
    of a run the head index is at most the step counter, the tape is
    never empty, and it is at most one cell longer than the initial tape
    plus the step counter. *)
Theorem space_bounded_by_steps M input_string max_steps r :
  reachable M input_string max_steps r ->
  0 <= head r <= step r
  /\ (1 <= length (tape r))%nat
  /\ Z.of_nat (length (tape r))
     <= Z.of_nat (length (tape (start M input_string))) + step r + 1.
Proof.
  intros Hr.
  assert (0 <= head r <= step r
          /\ (1 <= length (tape r))%nat
          /\ (Z.of_nat (length (tape r))
              <= Z.of_nat (length (tape (start M input_string))) + step r
              \/ running M max_steps r = false
                 /\ Z.of_nat (length (tape r))
                    <= Z.of_nat (length (tape (start M input_string)))
                       + step r + 1)) as (? & ? & [?|[_ ?]]);
    [|split; [done|split; [done|lia]]|done].
  induction Hr as [|r c Hr (Hh & Hl & Hlen) Hrun Hit].
  - split; [simpl; lia|]. split; [apply start_tape_nonempty|]. left. simpl. lia.
  - pose proof (reachable_wf _ _ _ _ Hr) as Hwf.
    destruct (iteration_grows_by_one _ _ _ Hwf Hl Hit) as (Hg & Hhd & Hc).
    pose proof (iteration_grows _ _ _ Hit) as Hmono.
    destruct (iteration_wf M _ Hwf) as (c' & Hit' & Hwf').
    assert (c' = c) as -> by congruence. unfold wf in Hwf'.
    destruct Hlen as [Hlen|[Hstop _]]; [|congruence].
    destruct c as [r'|r']; simpl in *.
    + apply iteration_continue_step in Hit.
      split; [lia|]. split; [lia|]. left. lia.
    + apply iteration_break in Hit as (Hs & Hq & _).
      split; [lia|]. split; [lia|]. right. split; [|lia].
      unfold running. rewrite Hq.
      rewrite (bool_decide_eq_true_2 (qreject M = qreject M)) by done.
      simpl. by rewrite andb_false_r.
Qed.

Lemma space_bounded_by_steps_witness :
  let r := advance 6 ends_in_one 10000 (start ends_in_one (py "0101")) in
  0 <= head r <= step r
  /\ (1 <= length (tape r))%nat
  /\ Z.of_nat (length (tape r))
     <= Z.of_nat (length (tape (start ends_in_one (py "0101")))) + step r + 1.
Proof.
  exact (space_bounded_by_steps ends_in_one (py "0101") 10000 _
           (reachable_advance 6 ends_in_one (py "0101") 10000)).
Defined.

(** ** What validation buys *)

Lemma dict_get_elem {K V} `{EqDecision K} (k : K) (v : V) (d : list (K * V)) :
  dict_get k d = Some v -> (k, v) ∈ d.
Proof.
  induction d as [|[k' v'] d IH]; simpl; [done|].
  destruct (decide (k = k')) as [->|_].
  - intros [= ->]. left.
  - intros H. right. by apply IH.
Qed.

Lemma valid_lookup M state symbol q b d :
  valid M ->
  lookup_delta M state symbol = Some (q, b, d) ->
  mem state (Q M) = true /\ symbol ∈ Gamma M
  /\ q ∈ Q M /\ b ∈ Gamma M /\ (d = py "L" \/ d = py "R").
Proof.
  intros Hv Hl. pose proof (valid_conditions M Hv 7%nat) as H7. simpl in H7.
  destruct state as [p|]; [|done]. simpl in Hl.
  apply dict_get_elem, list_elem_of_In in Hl.
  rewrite forallb_forall in H7. specialize (H7 _ Hl). simpl in H7.
  unfold is_direction in H7.
  repeat (apply andb_prop in H7 as [H7 ?]).
  repeat match goal with
    | H : bool_decide _ = true |- _ => apply bool_decide_eq_true in H
    end.
  simpl. rewrite bool_decide_eq_true_2 by done. repeat split; try done.
  match goal with H : _ || _ = true |- _ => apply orb_prop in H as [H|H] end;
    apply bool_decide_eq_true in H; auto.
Qed.

(** X6: validation closes the run over the declared sets.  For a valid
    machine and an input written over its input alphabet, at every point
    of a run every tape cell holds a symbol of [Gamma] and the state is
    a member of [Q]. *)
Theorem valid_run_stays_in_alphabet M input_string max_steps r :
  valid M ->
  over_sigma M input_string ->
  reachable M input_string max_steps r ->
  Forall (fun cell => cell ∈ Gamma M) (tape r) /\ mem (state r) (Q M) = true.
Proof.
  intros Hv Hin Hr.
  pose proof (valid_conditions M Hv 2%nat) as Hb. simpl in Hb.
  apply bool_decide_eq_true in Hb.
  pose proof (valid_conditions M Hv 3%nat) as Hsub. simpl in Hsub.
  apply bool_decide_eq_true in Hsub.
  pose proof (valid_conditions M Hv 5%nat) as H5. simpl in H5.
  apply andb_prop in H5 as [H5 Hqr]. apply andb_prop in H5 as [Hq0 _].
  induction Hr as [|r c Hr [IHt IHs] Hrun Hit].
  - split; [|done]. unfold start. simpl. case_bool_decide.
    + by repeat constructor.
    + unfold py_list. apply Forall_fmap. eapply Forall_impl; [exact Hin|].
      intros c Hc. simpl. by apply Hsub.
  - revert Hit. unfold iteration.
    destruct (extend _ _) as [t h] eqn:He.
    assert (Forall (fun cell => cell ∈ Gamma M) t) as Ht.
    { revert He. unfold extend.
      destruct (head r <? 0); cbv zeta beta iota;
        destruct (_ >=? _); intros [= <- <-];
        repeat first [apply Forall_app_2 | apply Forall_cons_2
                     | apply Forall_nil_2]; done. }
    destruct (getitem t h); [|done].
    destruct (lookup_delta _ _ _) as [[[q b] d]|] eqn:Hl.
    + destruct (valid_lookup _ _ _ _ _ _ Hv Hl) as (_ & _ & Hq & Hbg & _).
      unfold setitem. destruct (py_index _ _) as [i|]; [|done].
      assert (Forall (fun cell => cell ∈ Gamma M) (<[i:=b]> t)) as Hw
        by by apply Forall_insert.
      destruct (move _ h d) as [t' h'] eqn:Hm.
      intros [= <-]. simpl. split; [|by apply bool_decide_eq_true_2].
      revert Hm. unfold move.
      repeat case_bool_decide; try destruct (_ <? _); intros [= <- <-];
        repeat first [apply Forall_cons_2]; done.
    + intros [= <-]. simpl. done.
Qed.

Lemma valid_run_stays_in_alphabet_witness :
  let r := advance 5 ends_in_one 10000 (start ends_in_one (py "0101")) in
  Forall (fun cell => cell ∈ Gamma ends_in_one) (tape r)
  /\ mem (state r) (Q ends_in_one) = true.
Proof.
  refine (valid_run_stays_in_alphabet ends_in_one (py "0101") 10000 _ _ _
            (reachable_advance 5 ends_in_one (py "0101") 10000)).
  - vm_compute. reflexivity.
  - repeat constructor; vm_compute; reflexivity.
Defined.

(** X7: a valid machine never stays put.  Every transition a run of a
    valid machine applies is the entry of [delta] for the state and the
    symbol under the head, and its direction is [L] or [R].  On [R] the
    head index goes up by one, on [L] with the head right of cell 0 it
    goes down by one, and the tape is the tape read (with the blank
    appended when the head stood behind it) with the new symbol written
    under the head.  On [L] with the head on cell 0 the head index stays
    0 while one blank is inserted in front of the cell just written. *)
Theorem valid_transition_moves M input_string max_steps r r' :
  valid M ->
  reachable M input_string max_steps r ->
  iteration M r = Ok (Continue r') ->
  exists a q b d,
    current_symbol r = Some a
    /\ lookup_delta M (state r) a = Some (q, b, d)
    /\ ((d = py "R"
         /\ head r' = head r + 1
         /\ tape r' = <[Z.to_nat (head r):=b]> (fst (extend (tape r) (head r))))
        \/ (d = py "L" /\ 0 < head r
            /\ head r' = head r - 1
            /\ tape r' = <[Z.to_nat (head r):=b]> (fst (extend (tape r) (head r))))
        \/ (d = py "L" /\ head r = 0
            /\ head r' = 0
            /\ exists cell rest, tape r = cell :: rest
                                 /\ tape r' = blank :: b :: rest)).
Proof.
  intros Hv Hr Hit. pose proof (reachable_wf _ _ _ _ Hr) as Hwf.
  destruct (iteration_continue _ _ _ Hwf Hit) as (a & q & b & d & Ha & Hl & _ & Hm).
  destruct (valid_lookup _ _ _ _ _ _ Hv Hl) as (_ & _ & _ & _ & Hd).
  exists a, q, b, d. split; [done|]. split; [done|].
  pose proof (f_equal fst Hm) as Ht'. pose proof (f_equal snd Hm) as Hh'.
  cbn [fst snd] in Ht', Hh'. rewrite Ht', Hh'. clear Hm Ht' Hh'.
  unfold wf in Hwf. unfold move.
  destruct Hd as [->| ->].
  - rewrite bool_decide_eq_false_2 by done.
    rewrite bool_decide_eq_true_2 by done. cbv zeta.
    destruct (Z.ltb_spec (head r - 1) 0).
    + right. right. assert (head r = 0) as H0 by lia.
      rewrite (extend_in_range _ _ Hwf), H0. cbn [fst snd].
      destruct (tape r) as [|cell rest] eqn:Ht.
      * apply space_nonempty in Hr. rewrite Ht in Hr. simpl in Hr. lia.
      * rewrite bool_decide_eq_false_2 by (simpl; lia).
        repeat split. by exists cell, rest.
    + right. left. cbn [fst snd]. repeat split; lia.
  - rewrite bool_decide_eq_true_2 by done. left. cbn [fst snd]. done.
Qed.

Lemma valid_transition_moves_witness :
  let r := advance 4 ends_in_one 10000 (start ends_in_one (py "0101")) in
  let r' := advance 5 ends_in_one 10000 (start ends_in_one (py "0101")) in
  exists a q b d,
    current_symbol r = Some a
    /\ lookup_delta ends_in_one (state r) a = Some (q, b, d)
    /\ ((d = py "R"
         /\ head r' = head r + 1
         /\ tape r' = <[Z.to_nat (head r):=b]> (fst (extend (tape r) (head r))))
        \/ (d = py "L" /\ 0 < head r
            /\ head r' = head r - 1
            /\ tape r' = <[Z.to_nat (head r):=b]> (fst (extend (tape r) (head r))))
        \/ (d = py "L" /\ head r = 0
            /\ head r' = 0
            /\ exists cell rest, tape r = cell :: rest
                                 /\ tape r' = blank :: b :: rest)).
Proof.
  refine (valid_transition_moves ends_in_one (py "0101") 10000 _ _ _
            (reachable_advance 4 ends_in_one (py "0101") 10000) _).
  - vm_compute. reflexivity.
  - vm_compute. reflexivity.
Defined.

(** The first step of [ends_in_one] on the empty input goes left from
    cell 0: one blank is inserted and the head index stays 0. *)
Example left_move_at_the_left_end :
  let r := start ends_in_one [] in
  let r' := advance 1 ends_in_one 10000 r in
  lookup_delta ends_in_one (state r) blank = Some (py "back", blank, py "L")
  /\ (tape r, head r) = ([blank], 0)
  /\ (tape r', head r') = ([blank; blank], 0).
Proof. by vm_compute. Qed.

(** ** The length of the trace *)

Lemma exec_trace_length M max_steps r k e r' :
  exec M max_steps r k e r' ->
  0 <= step r ->
  (length (configurations r')
   <= length (configurations r) + k + match e with Fallthrough => 0 | Missing => 1 end)%nat
  /\ (step r' < 100 ->
      length (configurations r')
      = (length (configurations r) + k
         + match e with Fallthrough => 0 | Missing => 1 end)%nat).
Proof.
  induction 1 as [r Hrun|r r' Hrun Hit|r r1 k e r' Hrun Hit Hex IH]; intros Hs.
  - split; [lia|intros _; lia].
  - apply iteration_break_configurations in Hit as [-> _].
    rewrite length_app. simpl. split; [lia|intros _; lia].
  - pose proof (iteration_continue_step _ _ _ Hit) as Hs1.
    pose proof (exec_step _ _ _ _ _ _ Hex) as Hs'.
    destruct IH as [IH1 IH2]; [lia|].
    rewrite (iteration_continue_configurations _ _ _ Hit) in IH1, IH2.
    rewrite length_app in IH1, IH2. split.
    + destruct (keep M (snap r1)); simpl in IH1; lia.
    + intros Hlt. specialize (IH2 Hlt).
      assert (keep M (snap r1) = true) as Hk.
      { unfold keep, snap. simpl.
        destruct (Z.ltb_spec (step r1) 100); [done|lia]. }
      rewrite Hk in IH2. simpl in IH2. lia.
Qed.

(** X8: the trace is never empty and never has more than two entries
    beyond the step counter.  When the run ends with fewer than 100
    steps, the number of entries after the initial one is exactly the
    step counter, plus one when the run ended on a missing transition;
    this is the number [save_output] and [main] print as the number of
    steps. *)
Theorem trace_length M input_string max_steps :
  exists k e r,
    exec M max_steps (start M input_string) k e r
    /\ run_state M input_string max_steps = Ok r
    /\ step r = Z.of_nat k
    /\ (1 <= length (configurations r)
        <= 1 + k + match e with Fallthrough => 0 | Missing => 1 end)%nat
    /\ (step r < 100 ->
        Z.of_nat (length (configurations r)) - 1
        = step r + match e with Fallthrough => 0 | Missing => 1 end).
Proof.
  destruct (run_state_exec M input_string max_steps) as (k & e & r & Hex & Hr).
  exists k, e, r. split; [done|]. split; [done|].
  pose proof (exec_step _ _ _ _ _ _ Hex) as Hs. simpl in Hs.
  destruct (exec_trace_length _ _ _ _ _ _ Hex) as [Hle Heq]; [simpl; lia|].
  assert (length (configurations (start M input_string)) = 1%nat) as H1
    by (unfold start; cbn [configurations]; by rewrite capture_text).
  rewrite H1 in Hle, Heq. split; [lia|]. split.
  - split; [|lia].
    assert (exists l, configurations r = configurations (start M input_string) ++ l)
      as [l Hl].
    { clear -Hex. induction Hex as [r Hrun|r r' Hrun Hit|r r1 k e r' Hrun Hit _ [l IH]].
      - exists []. by rewrite app_nil_r.
      - apply iteration_break_configurations in Hit as [-> _]. eauto.
      - rewrite IH, (iteration_continue_configurations _ _ _ Hit), <- app_assoc.
        eauto. }
    rewrite Hl, length_app, H1. lia.
  - intros Hlt. rewrite (Heq Hlt). destruct e; lia.
Qed.

(** ** Raising the limit *)

Lemma exec_raise_limit M m m' r k e r' :
  exec M m r k e r' -> step r' < m -> m <= m' -> exec M m' r k e r'.
Proof.
  intros Hex Hlt Hle.
  induction Hex as [r Hrun|r r' Hrun Hit|r r1 k e r' Hrun Hit _ IH].
  - constructor. unfold running in *.
    destruct (Z.ltb_spec (step r) m); [|lia].
    rewrite andb_true_r in Hrun. rewrite Hrun. done.
  - constructor; [|done]. unfold running in *.
    apply andb_prop in Hrun as [-> Hs]. simpl. lia.
  - econstructor; [|done|by apply IH]. unfold running in *.
    apply andb_prop in Hrun as [-> Hs]. simpl. lia.
Qed.

(** X9: an answer does not depend on the limit it was obtained with.
    When a run with limit [m] ends with a result other than the
    step-limit one, the run with any larger limit returns the same trace
    and the same result. *)
Theorem larger_limit_same_answer M input_string m m' configurations result :
  run M input_string m = Ok (configurations, result) ->
  result <> StepLimit ->
  m <= m' ->
  run M input_string m' = Ok (configurations, result).
Proof.
  intros Hrun Hres Hle. apply run_runs in Hrun as (k & e & r & Hex & [= -> ->]).
  assert (step r < m) as Hlt.
  { unfold verdict in Hres. destruct (Z.geb_spec (step r) m); [done|lia]. }
  pose proof (exec_raise_limit _ _ _ _ _ _ _ Hex Hlt Hle) as Hex'.
  rewrite (run_of_run_state _ _ _ _ (exec_run_state _ _ _ _ _ _ Hex')).
  do 2 f_equal. unfold verdict.
  destruct (Z.geb_spec (step r) m); [lia|].
  destruct (Z.geb_spec (step r) m'); [lia|]. done.
Qed.

Lemma larger_limit_same_answer_witness :
  run ends_in_one (py "0101") 10000
  = Ok ([py "scan0101"; py "0scan101"; py "01scan01"; py "010scan1";
         py "0101scan⊔"; py "010back1"; py "0101yes⊔"], Accepted).
Proof.
  refine (larger_limit_same_answer ends_in_one (py "0101") 7 10000 _ _ _ _ _).
  - vm_compute. reflexivity.
  - discriminate.
  - lia.
Defined.

(** ** Trailing blanks *)

Lemma trim_snoc_blank t : shown (trim (t ++ [blank])) = shown (trim t).
Proof.
  unfold trim. rewrite length_app, Nat.add_1_r. simpl.
  rewrite last_snoc, length_app, removelast_last.
  rewrite (bool_decide_eq_true_2 (Some blank = Some blank)) by done.
  rewrite andb_true_r. destruct t as [|x t]; [done|].
  simpl length. destruct (Nat.ltb_spec 1 (S (length t) + 1)); [done|lia].
Qed.

(** X10: blank cells added at the right end of a tape do not change the
    configuration printed for it, wherever the head is. *)
Theorem configuration_ignores_trailing_blanks tape state head n :
  snd (get_configuration (tape ++ replicate n blank) state head)
  = snd (get_configuration tape state head).
Proof.
  unfold get_configuration. simpl.
  assert (shown (trim (tape ++ replicate n blank)) = shown (trim tape)) as ->;
    [|done].
  induction n as [|n IH]; [by rewrite app_nil_r|].
  by rewrite replicate_S_end, app_assoc, trim_snoc_blank.
Qed.

(** X11: what the trimming loop of [get_configuration] leaves.  The
    popped tape is a prefix of the tape and the cells cut off are all
    blank; a non-empty tape keeps at least one cell; the last cell kept
    is not blank unless it is the only one; trimming again changes
    nothing. *)
Theorem trim_characterisation tape :
  (exists n, tape = trim tape ++ replicate n blank)
  /\ (tape <> [] -> trim tape <> [])
  /\ (forall l, trim tape = l ++ [blank] -> l = [])
  /\ trim (trim tape) = trim tape.
Proof.
  assert (forall l, trim tape = l ++ [blank] -> l = []) as Hlast.
  { intros l Hl.
    pose proof (pop_blanks_stops (length tape) tape ltac:(done)) as Hstop.
    fold (trim tape) in Hstop. rewrite Hl in Hstop.
    rewrite last_snoc, length_app in Hstop.
    rewrite bool_decide_eq_true_2, andb_true_r in Hstop by done.
    destruct l; [done|]. apply Nat.ltb_ge in Hstop. simpl in Hstop. lia. }
  split; [apply pop_blanks_prefix|]. split; [apply pop_blanks_nonempty|].
  split; [exact Hlast|].
  generalize (trim tape) Hlast. clear. intros t Ht. unfold trim.
  destruct (length t) as [|n] eqn:Hn; [done|]. simpl.
  destruct ((1 <? length t)%nat && bool_decide (last t = Some blank)) eqn:Hc;
    [|done].
  apply andb_prop in Hc as [Hlen Hl%bool_decide_eq_true].
  destruct t as [|x t] using rev_ind; [done|]. rewrite last_snoc in Hl.
  injection Hl as ->. rewrite (Ht t eq_refl) in Hlen. done.
Qed.

(** * The loader *)

Example load_ends_in_one :
  load_from_file new_machine (py "m.txt") (Lines ends_in_one_file)
  = Returned (ends_in_one, py "0101").
Proof. vm_compute. reflexivity. Qed.

(** ** The transition dict *)

(** X12: the dict written by [parse_transition].  A key just set reads
    back its value, the other keys read as before, a key that was
    present keeps its place and no key is ever doubled, so the entry
    written last for a (state, symbol) pair is the one the engine
    finds. *)
Theorem dict_set_get {K V} `{EqDecision K} (k : K) (v : V) (d : list (K * V)) :
  dict_get k (dict_set k v d) = Some v
  /\ (forall k', k' <> k -> dict_get k' (dict_set k v d) = dict_get k' d)
  /\ (dict_set k v d).*1
     = (if bool_decide (k ∈ d.*1) then d.*1 else d.*1 ++ [k])
  /\ (NoDup d.*1 -> NoDup (dict_set k v d).*1).
Proof.
  assert ((dict_set k v d).*1
          = (if bool_decide (k ∈ d.*1) then d.*1 else d.*1 ++ [k])) as Hkeys.
  { induction d as [|[k' v'] d IH]; [done|]. cbn [dict_set].
    destruct (decide (k = k')) as [->|Hne]; rewrite !fmap_cons; cbn [fst].
    - rewrite bool_decide_eq_true_2 by left. done.
    - rewrite IH. destruct (decide (k ∈ d.*1)) as [Hin|Hin].
      + rewrite !bool_decide_eq_true_2; [done|by right|done].
      + rewrite !bool_decide_eq_false_2; [done| |done].
        intros [?|?]%elem_of_cons; done. }
  split; [|split; [|split; [exact Hkeys|]]].
  - clear Hkeys. induction d as [|[k' v'] d IH]; simpl.
    + by destruct (decide (k = k)).
    + destruct (decide (k = k')) as [->|Hne]; simpl.
      * by destruct (decide (k' = k')).
      * destruct (decide (k = k')); [done|apply IH].
  - clear Hkeys. intros k0 Hk0. induction d as [|[k' v'] d IH]; simpl.
    + by destruct (decide (k0 = k)).
    + destruct (decide (k = k')) as [->|Hne]; simpl.
      * by destruct (decide (k0 = k')).
      * destruct (decide (k0 = k')); [done|apply IH].
  - intros Hnd. rewrite Hkeys. case_bool_decide as Hin; [done|].
    apply NoDup_app. split; [done|]. split; [|apply NoDup_singleton].
    intros x Hx ->%list_elem_of_singleton. done.
Qed.

(** ** Splitting and stripping *)

Lemma split_go_char_none x cur (s : str) :
  x ∉ s -> split_go [x] 0 cur s = [cur ++ s].
Proof.
  revert cur. induction s as [|c s IH]; intros cur Hx; simpl.
  - by rewrite app_nil_r.
  - rewrite bool_decide_eq_false_2 by (intros ->; apply Hx; left). simpl.
    rewrite IH by (intros ?; apply Hx; by right).
    by rewrite <- app_assoc.
Qed.

Lemma split_go_char_cut x cur (l r : str) :
  x ∉ l ->
  split_go [x] 0 cur (l ++ [x] ++ r) = (cur ++ l) :: split_go [x] 0 [] r.
Proof.
  revert cur. induction l as [|c l IH]; intros cur Hx; simpl.
  - rewrite bool_decide_eq_true_2 by done. simpl. by rewrite app_nil_r.
  - rewrite bool_decide_eq_false_2 by (intros ->; apply Hx; left). simpl.
    rewrite IH by (intros ?; apply Hx; by right).
    by rewrite <- app_assoc.
Qed.

Lemma is_prefix_arrow (s : str) :
  is_prefix [45%N; 62%N] s = true -> exists r, s = 45%N :: 62%N :: r.
Proof.
  destruct s as [|a [|b r]]; simpl; try done.
  - by rewrite andb_false_r.
  - intros H. apply andb_prop in H as [Ha H]. apply andb_prop in H as [Hb _].
    apply bool_decide_eq_true in Ha, Hb. subst. eauto.
Qed.

Lemma split_go_arrow_none cur (s : str) :
  62%N ∉ s -> split_go [45%N; 62%N] 0 cur s = [cur ++ s].
Proof.
  revert cur. induction s as [|c s IH]; intros cur Hx.
  - simpl. by rewrite app_nil_r.
  - cbn [split_go].
    destruct (is_prefix [45%N; 62%N] (c :: s)) eqn:Hp.
    + apply is_prefix_arrow in Hp as [r [= -> ->]].
      exfalso. apply Hx. right. left.
    + rewrite IH by (intros ?; apply Hx; by right).
      by rewrite <- app_assoc.
Qed.

Lemma split_go_arrow_cut cur (l r : str) :
  62%N ∉ l ->
  split_go [45%N; 62%N] 0 cur (l ++ [45%N; 62%N] ++ r)
  = (cur ++ l) :: split_go [45%N; 62%N] 0 [] r.
Proof.
  revert cur. induction l as [|c l IH]; intros cur Hx.
  - simpl. by rewrite app_nil_r.
  - rewrite <- app_comm_cons. cbn [split_go].
    destruct (is_prefix [45%N; 62%N] (c :: l ++ [45%N; 62%N] ++ r)) eqn:Hp.
    + apply is_prefix_arrow in Hp as [r' Hp]. exfalso.
      destruct l as [|c' l]; simpl in Hp; [done|].
      injection Hp as -> -> _. apply Hx. right. left.
    + rewrite IH by (intros ?; apply Hx; by right).
      by rewrite <- app_assoc.
Qed.

Lemma lstrip_by_all p (w s : str) :
  Forall (fun c => p c = true) w -> lstrip_by p (w ++ s) = lstrip_by p s.
Proof. induction 1 as [|c w Hc _ IH]; simpl; [done|]. by rewrite Hc. Qed.

Lemma lstrip_by_none p (s : str) :
  match s with [] => True | c :: _ => p c = false end -> lstrip_by p s = s.
Proof. destruct s as [|c s]; simpl; [done|]. by intros ->. Qed.

(** A word with nothing to strip at its ends, wrapped in characters
    that are all stripped. *)
Lemma strip_by_wrapped p (w1 mid w2 : str) :
  Forall (fun c => p c = true) w1 ->
  Forall (fun c => p c = true) w2 ->
  match mid with [] => True | c :: _ => p c = false end ->
  match reverse mid with [] => True | c :: _ => p c = false end ->
  strip_by p (w1 ++ mid ++ w2) = mid.
Proof.
  intros H1 H2 Hf Hl. unfold strip_by, rstrip_by.
  rewrite lstrip_by_all by done.
  destruct mid as [|c m].
  - simpl. rewrite <- (app_nil_r w2), lstrip_by_all by done. done.
  - rewrite (lstrip_by_none p ((c :: m) ++ w2)) by done.
    rewrite reverse_app, lstrip_by_all by by apply Forall_reverse.
    rewrite lstrip_by_none by done. apply reverse_involutive.
Qed.

Lemma ends_of_clean p (mid : str) :
  Forall (fun c => p c = false) mid ->
  match mid with [] => True | c :: _ => p c = false end
  /\ match reverse mid with [] => True | c :: _ => p c = false end.
Proof.
  intros H. split; [by destruct H|].
  apply Forall_reverse in H. by destruct H.
Qed.

Lemma strip_parenthesised (w1 w2 X : str) :
  all_space w1 -> all_space w2 ->
  Forall (fun c => c ∉ [40%N; 41%N]) X ->
  strip_chars [40%N; 41%N] (strip (w1 ++ [40%N] ++ X ++ [41%N] ++ w2)) = X.
Proof.
  intros H1 H2 HX. unfold strip.
  replace (w1 ++ [40%N] ++ X ++ [41%N] ++ w2)
    with (w1 ++ (40%N :: X ++ [41%N]) ++ w2)
    by (simpl; by rewrite <- !app_assoc).
  rewrite strip_by_wrapped; [|done|done|done|].
  - unfold strip_chars.
    change (40%N :: X ++ [41%N]) with ([40%N] ++ X ++ [41%N]).
    assert (Forall (fun c => bool_decide (c ∈ [40%N; 41%N]) = false) X) as HX'.
    { eapply Forall_impl; [exact HX|]. intros c Hc.
      by apply bool_decide_eq_false_2. }
    destruct (ends_of_clean _ _ HX') as [Hf Hl].
    apply strip_by_wrapped; try done; by repeat constructor.
  - rewrite reverse_cons, reverse_app. done.
Qed.

Ltac not_in_list :=
  let H := fresh in
  intros H; rewrite ?elem_of_cons, ?elem_of_nil in H; decompose [or] H; done.

Lemma no_delims_facts (s : str) :
  no_delims s ->
  (62%N ∉ s) /\ (44%N ∉ s) /\ Forall (fun c => c ∉ [40%N; 41%N]) s.
Proof.
  intros H. unfold no_delims in H.
  change (py ",()>") with [44%N; 40%N; 41%N; 62%N] in H.
  rewrite Forall_forall in H. repeat split.
  - intros Hin. apply (H _ Hin). do 3 right. left.
  - intros Hin. apply (H _ Hin). left.
  - apply Forall_forall. intros c Hc Hp. apply (H _ Hc).
    apply elem_of_cons in Hp as [->|Hp]; [right; left|].
    apply list_elem_of_singleton in Hp as ->. do 2 right. left.
Qed.

Lemma all_space_no_arrow (w : str) : all_space w -> 62%N ∉ w.
Proof.
  intros H Hin. unfold all_space in H. rewrite Forall_forall in H.
  by specialize (H _ Hin).
Qed.

(** X13: a transition written as in the docstring is read back.  For
    components free of commas, parentheses and [>], with any blanks
    around the arrow and inside the components, [parse_transition]
    returns, and the dict gets the stripped components: the key
    (state, symbol) is set to (new state, new symbol, direction). *)
Theorem parse_transition_reads delta q a w1 w2 q' b d :
  no_delims q -> no_delims a -> no_delims q' -> no_delims b -> no_delims d ->
  all_space w1 -> all_space w2 ->
  parse_transition delta (transition_line q a w1 w2 q' b d)
  = Returned (dict_set (strip q, strip a) (strip q', strip b, strip d) delta).
Proof.
  intros Hq Ha Hq' Hb Hd Hw1 Hw2.
  destruct (no_delims_facts _ Hq) as (Hq1 & Hq2 & Hq3).
  destruct (no_delims_facts _ Ha) as (Ha1 & Ha2 & Ha3).
  destruct (no_delims_facts _ Hq') as (Hq'1 & Hq'2 & Hq'3).
  destruct (no_delims_facts _ Hb) as (Hb1 & Hb2 & Hb3).
  destruct (no_delims_facts _ Hd) as (Hd1 & Hd2 & Hd3).
  pose proof (all_space_no_arrow _ Hw1) as Hw1'.
  pose proof (all_space_no_arrow _ Hw2) as Hw2'.
  unfold parse_transition, transition_line, split.
  change (py "->") with [45%N; 62%N]. change (py "(") with [40%N].
  change (py ")") with [41%N]. change (py ",") with [44%N].
  change (py "()") with [40%N; 41%N].
  set (L := [] ++ [40%N] ++ (q ++ [44%N] ++ a) ++ [41%N] ++ w1).
  set (R := w2 ++ [40%N] ++ (q' ++ [44%N] ++ b ++ [44%N] ++ d) ++ [41%N] ++ []).
  replace ([40%N] ++ q ++ [44%N] ++ a ++ [41%N] ++ w1 ++ [45%N; 62%N] ++ w2
           ++ [40%N] ++ q' ++ [44%N] ++ b ++ [44%N] ++ d ++ [41%N])
    with (L ++ [45%N; 62%N] ++ R)
    by (unfold L, R; rewrite <- !app_assoc, !app_nil_r; done).
  rewrite split_go_arrow_cut, split_go_arrow_none, !app_nil_l.
  2: { unfold R. rewrite !elem_of_app, !elem_of_cons, !elem_of_nil.
       intros H. decompose [or] H; done. }
  2: { unfold L. rewrite !elem_of_app, !elem_of_cons, !elem_of_nil.
       intros H. decompose [or] H; done. }
  unfold L, R.
  rewrite !strip_parenthesised; try done; try constructor.
  2, 3: repeat first [apply Forall_app_2 | apply Forall_cons_2];
    try done; try apply Forall_nil_2; not_in_list.
  rewrite (split_go_char_cut 44%N [] q), (split_go_char_none 44%N [] a) by done.
  rewrite (split_go_char_cut 44%N [] q'), (split_go_char_cut 44%N [] b),
    (split_go_char_none 44%N [] d) by done.
  reflexivity.
Qed.

Lemma parse_transition_reads_witness :
  parse_transition [] (py "(scan, 1) -> (scan, 1, R)")
  = Returned [((py "scan", py "1"), (py "scan", py "1", py "R"))].
Proof.
  refine (parse_transition_reads [] (py "scan") (py " 1") (py " ") (py " ")
            (py "scan") (py " 1") (py " R") _ _ _ _ _ _ _);
    repeat constructor; try reflexivity;
    intros H%list_elem_of_In; vm_compute in H; decompose [or] H; done.
Defined.

(** X14: a line without [>] has no arrow to split at and is refused with
    the message that quotes it; more generally [parse_transition]
    either returns the dict with one key set, or raises that message
    and leaves the dict as it was. *)
Theorem parse_transition_refuses delta trans :
  (62%N ∉ trans -> parse_transition delta trans = Raised (parse_error trans))
  /\ ((exists k v, parse_transition delta trans = Returned (dict_set k v delta))
      \/ parse_transition delta trans = Raised (parse_error trans)).
Proof.
  split.
  - intros H. unfold parse_transition, split.
    change (py "->") with [45%N; 62%N].
    by rewrite split_go_arrow_none.
  - unfold parse_transition.
    destruct (split _ trans) as [|l1 [|l2 [|? ?]]]; auto.
    destruct (strip <$> split _ _) as [|x1 [|x2 [|? ?]]]; auto.
    destruct (strip <$> split _ _) as [|y1 [|y2 [|y3 [|? ?]]]]; eauto.
Qed.

(** ** Reading a file *)

Lemma is_prefix_spec (p s : str) :
  is_prefix p s = true <-> exists t, s = p ++ t.
Proof.
  revert s. induction p as [|a p IH]; intros s; simpl.
  - split; [eauto|done].
  - destruct s as [|b s].
    + split; [done|]. by intros [t ?].
    + rewrite andb_true_iff, bool_decide_eq_true, IH. split.
      * intros [-> [t ->]]. eauto.
      * intros [t [= -> ->]]. eauto.
Qed.

Lemma lstrip_by_idem p (s : str) : lstrip_by p (lstrip_by p s) = lstrip_by p s.
Proof.
  induction s as [|c s IH]; simpl; [done|].
  destruct (p c) eqn:Hc; [done|]. simpl. by rewrite Hc.
Qed.

Lemma lstrip_by_suffix p (s : str) :
  exists w, s = w ++ lstrip_by p s /\ Forall (fun c => p c = true) w.
Proof.
  induction s as [|c s (w & IH & Hw)]; simpl; [by exists []|].
  destruct (p c) eqn:Hc.
  - exists (c :: w). split; [by rewrite IH at 1|by constructor].
  - by exists [].
Qed.

Lemma lstrip_by_head p (s : str) :
  match lstrip_by p s with [] => True | c :: _ => p c = false end.
Proof.
  induction s as [|c s IH]; simpl; [done|].
  by destruct (p c) eqn:Hc.
Qed.

Lemma strip_by_idem p (s : str) : strip_by p (strip_by p s) = strip_by p s.
Proof.
  unfold strip_by, rstrip_by.
  set (t := lstrip_by p s).
  destruct (lstrip_by_suffix p (reverse t)) as (w & Hw & Hp).
  set (u := lstrip_by p (reverse t)) in *.
  assert (lstrip_by p (reverse u) = reverse u) as ->.
  { apply (f_equal reverse) in Hw.
    rewrite reverse_involutive, reverse_app in Hw.
    pose proof (lstrip_by_head p s) as Hh. fold t in Hh. rewrite Hw in Hh.
    destruct (reverse u) as [|c r]; [done|]. simpl in *. by rewrite Hh. }
  rewrite reverse_involutive. unfold u. by rewrite lstrip_by_idem.
Qed.

Lemma strip_idem' (s : str) : strip (strip s) = strip s.
Proof. apply strip_by_idem. Qed.

Lemma clean_app raw1 raw2 : clean (raw1 ++ raw2) = clean raw1 ++ clean raw2.
Proof. unfold clean. by rewrite List.filter_app, fmap_app. Qed.

Lemma clean_kept line :
  strip line <> [] -> is_prefix (py "#") (strip line) = false ->
  clean [line] = [strip line].
Proof.
  intros Hne Hc. unfold clean. cbn [List.filter].
  by rewrite bool_decide_eq_false_2, Hc.
Qed.

(** X15: blank lines and lines whose first non-blank character is [#]
    are not seen by the loader, wherever they stand: with or without
    such a line the call returns the same machine and input, or raises
    the same message. *)
Theorem load_skips_comments M filename raw1 line raw2 :
  strip line = [] \/ is_prefix (py "#") (strip line) = true ->
  load_from_file M filename (Lines (raw1 ++ line :: raw2))
  = load_from_file M filename (Lines (raw1 ++ raw2)).
Proof.
  intros Hc. unfold load_from_file. f_equal.
  rewrite !clean_app. f_equal.
  change (line :: raw2) with ([line] ++ raw2). rewrite clean_app.
  assert (clean [line] = []) as ->; [|done].
  unfold clean. cbn [List.filter]. destruct Hc as [->| ->]; [done|].
  by rewrite andb_false_r.
Qed.

Lemma load_skips_comments_witness :
  load_from_file new_machine (py "m.txt")
    (Lines ([py "q0: a"] ++ py "  # nota" :: [py "input: 01"]))
  = load_from_file new_machine (py "m.txt")
      (Lines ([py "q0: a"] ++ [py "input: 01"])).
Proof.
  apply (load_skips_comments new_machine (py "m.txt")).
  right. reflexivity.
Defined.

Lemma load_sections_input b M pre line rest rest' :
  is_prefix (py "input:") line = true ->
  contains (py "->") line = false ->
  load_sections b M (pre ++ line :: rest)
  = load_sections b M (pre ++ line :: rest').
Proof.
  intros Hp Ha. revert b M. induction pre as [|x pre IH]; intros b M.
  - apply is_prefix_spec in Hp as [t ->].
    cbn [app load_sections]. unfold section_line. rewrite Ha.
    assert (contains (py ":") (py "input:" ++ t) = true) as -> by done.
    rewrite andb_false_r. done.
  - cbn [app load_sections].
    repeat match goal with
      | |- context [if ?c then _ else _] => destruct c
      | |- context [match parse_transition ?d ?t with _ => _ end] =>
          destruct (parse_transition d t)
      end; try done; apply IH.
Qed.

(** X16: the [input:] line ends the reading.  Whatever follows the
    first line that opens with [input:] (and holds no arrow) changes
    neither the machine and input returned nor the message raised. *)
Theorem load_stops_at_input M filename pre line rest rest' :
  input_line line ->
  load_from_file M filename (Lines (pre ++ line :: rest))
  = load_from_file M filename (Lines (pre ++ line :: rest')).
Proof.
  intros [Hp Ha]. unfold load_from_file.
  assert (clean [line] = [strip line]) as Hl.
  { apply clean_kept.
    - apply is_prefix_spec in Hp as [t ->]. done.
    - apply is_prefix_spec in Hp as [t ->]. done. }
  change (line :: rest) with ([line] ++ rest).
  change (line :: rest') with ([line] ++ rest').
  rewrite !clean_app, Hl. by apply load_sections_input.
Qed.

Lemma load_stops_at_input_witness :
  load_from_file new_machine (py "m.txt")
    (Lines ([py "q0: a"] ++ py "input: 01" :: [py "q0: b"; py "delta:"; py "x"]))
  = load_from_file new_machine (py "m.txt")
      (Lines ([py "q0: a"] ++ py "input: 01" :: [])).
Proof.
  apply (load_stops_at_input new_machine (py "m.txt")).
  split; reflexivity.
Defined.

Lemma load_sections_no_input b M lines M' input_string :
  Forall (fun line => is_prefix (py "input:") line = false) lines ->
  load_sections b M lines = Returned (M', input_string) ->
  input_string = [].
Proof.
  intros Hall. revert b M.
  induction Hall as [|x lines Hx _ IH]; intros b M; cbn [load_sections].
  - by intros [= _ <-].
  - rewrite Hx.
    repeat match goal with
      | |- context [if ?c then _ else _] => destruct c
      | |- context [match parse_transition ?d ?t with _ => _ end] =>
          destruct (parse_transition d t)
      end; try done; apply IH.
Qed.

(** X17: without an [input:] line the input string is empty: when no
    line of the file opens with [input:] and the call returns, it
    returns the empty string. *)
Theorem load_without_input M filename raw :
  Forall (fun line => is_prefix (py "input:") (strip line) = false) raw ->
  match load_from_file M filename (Lines raw) with
  | Returned (_, input_string) => input_string = []
  | Raised _ => True
  end.
Proof.
  intros Hall. unfold load_from_file.
  destruct (load_sections false M (clean raw)) as [[M' s]|] eqn:Hl; [|done].
  revert Hl. apply load_sections_no_input.
  unfold clean. apply Forall_fmap, Forall_forall.
  intros line [Hin _]%list_elem_of_In%filter_In.
  rewrite Forall_forall in Hall. apply Hall. by apply list_elem_of_In.
Qed.

Lemma load_without_input_witness :
  match load_from_file new_machine (py "m.txt")
          (Lines [py "Q: a,b"; py "q0: a"; py "delta:"; py "(a,0)->(b,1,R)"]) with
  | Returned (_, input_string) => input_string = []
  | Raised _ => True
  end.
Proof.
  apply (load_without_input new_machine (py "m.txt")).
  repeat constructor.
Defined.

Lemma parse_transition_message delta trans message :
  parse_transition delta trans = Raised message -> message = parse_error trans.
Proof.
  unfold parse_transition.
  destruct (split _ trans) as [|l1 [|l2 [|? ?]]]; try by intros [= <-].
  destruct (strip <$> split _ _) as [|x1 [|x2 [|? ?]]]; try by intros [= <-].
  destruct (strip <$> split _ _) as [|y1 [|y2 [|y3 [|? ?]]]]; by intros [= <-].
Qed.

(** Whether [parse_transition] raises does not depend on the dict. *)
Lemma parse_transition_raises delta delta' trans message :
  parse_transition delta trans = Raised message ->
  parse_transition delta' trans = Raised message.
Proof.
  unfold parse_transition.
  destruct (split _ trans) as [|l1 [|l2 [|? ?]]]; try done.
  destruct (strip <$> split _ _) as [|x1 [|x2 [|? ?]]]; try done.
  destruct (strip <$> split _ _) as [|y1 [|y2 [|y3 [|? ?]]]]; done.
Qed.

Lemma load_sections_raised b M lines message :
  load_sections b M lines = Raised message ->
  exists trans,
    trans ∈ lines
    /\ (forall d, parse_transition d (strip trans)
                  = Raised (parse_error (strip trans)))
    /\ message = py "Error al cargar el archivo: " ++ parse_error (strip trans).
Proof.
  revert b M. induction lines as [|x lines IH]; intros b M; cbn [load_sections];
    [done|].
  assert (forall b' M', load_sections b' M' lines = Raised message ->
            exists trans, trans ∈ x :: lines
              /\ (forall d, parse_transition d (strip trans)
                            = Raised (parse_error (strip trans)))
              /\ message = py "Error al cargar el archivo: "
                           ++ parse_error (strip trans)) as IH'.
  { intros b' M' (trans & Hin & Hp & ->)%IH. exists trans.
    split; [by right|done]. }
  repeat match goal with
    | |- context [if ?c then _ else _] => destruct c
    end; try done; try apply IH'.
  destruct (parse_transition (delta M) (strip x)) as [d|m] eqn:Hp; [apply IH'|].
  pose proof (parse_transition_message _ _ _ Hp) as ->. intros [= <-].
  exists x. split; [left|]. split; [|done].
  intros d. revert Hp. apply parse_transition_raises.
Qed.

(** X18: why loading fails.  The call raises in three ways and no
    other.  When there is no such file, the message names the file.
    When opening or reading the file fails otherwise, the message is
    the text of that failure behind "Error al cargar el archivo: ".
    When the file is read, the message quotes behind the same words a
    line of the file (stripped, neither empty nor a comment) that
    [parse_transition] refuses whatever the dict holds.  A file whose
    lines [parse_transition] all accept is therefore loaded. *)
Theorem load_failure M filename file message :
  load_from_file M filename file = Raised message ->
  (file = NoSuchFile
   /\ message = py "Archivo " ++ filename ++ py " no encontrado")
  \/ (exists text,
        file = ReadFails text
        /\ message = py "Error al cargar el archivo: " ++ text)
  \/ (exists raw trans,
        file = Lines raw /\ trans ∈ clean raw
        /\ (forall d, parse_transition d trans = Raised (parse_error trans))
        /\ message = py "Error al cargar el archivo: "
                     ++ py "Error al parsear transición: " ++ trans).
Proof.
  destruct file as [|text|raw]; unfold load_from_file.
  - intros [= <-]. by left.
  - intros [= <-]. right. left. by exists text.
  - intros (trans & Hin & Hp & ->)%load_sections_raised. right. right.
    exists raw, trans.
    assert (strip trans = trans) as Hs.
    { unfold clean in Hin. apply list_elem_of_fmap in Hin as (line & -> & _).
      apply strip_by_idem. }
    rewrite Hs in Hp. rewrite Hs.
    split; [reflexivity|]. split; [exact Hin|]. split; [exact Hp|].
    unfold parse_error. reflexivity.
Qed.

Lemma load_failure_witness :
  (Lines [py "delta:"; py "  sin flecha  "] = NoSuchFile
   /\ py "Error al cargar el archivo: Error al parsear transición: sin flecha"
      = py "Archivo " ++ py "m.txt" ++ py " no encontrado")
  \/ (exists text,
        Lines [py "delta:"; py "  sin flecha  "] = ReadFails text
        /\ py "Error al cargar el archivo: Error al parsear transición: sin flecha"
           = py "Error al cargar el archivo: " ++ text)
  \/ (exists raw trans,
        Lines [py "delta:"; py "  sin flecha  "] = Lines raw /\ trans ∈ clean raw
        /\ (forall d, parse_transition d trans = Raised (parse_error trans))
        /\ py "Error al cargar el archivo: Error al parsear transición: sin flecha"
           = py "Error al cargar el archivo: "
             ++ py "Error al parsear transición: " ++ trans).
Proof.
  apply (load_failure new_machine (py "m.txt")).
  vm_compute. reflexivity.
Defined.

(** The three ways, each on a file: a missing file, a directory in
    place of the file, a [delta:] section with a line that has no
    arrow. *)
Example load_failure_samples :
  load_from_file new_machine (py "m.txt") NoSuchFile
  = Raised (py "Archivo m.txt no encontrado")
  /\ load_from_file new_machine (py "m")
       (ReadFails (py "[Errno 21] Is a directory: 'm'"))
     = Raised (py "Error al cargar el archivo: [Errno 21] Is a directory: 'm'")
  /\ load_from_file new_machine (py "m.txt")
       (Lines [py "delta:"; py "  sin flecha  "])
     = Raised (py "Error al cargar el archivo: Error al parsear transición: sin flecha").
Proof. by vm_compute. Qed.

(** * The writer *)

Example save_output_sample :
  save_output [py "q0⊔"; py "⊔qa⊔"] (py "ACEPTADA")
  = py "CONFIGURACIONES DE LA MÁQUINA DE TURING" ++ nl
    ++ rule ++ nl ++ nl
    ++ py "q0⊔" ++ nl ++ py "⊔qa⊔" ++ nl
    ++ nl ++ rule ++ nl
    ++ py "RESULTADO: ACEPTADA" ++ nl
    ++ py "Número de pasos: 1" ++ nl.
Proof. vm_compute. reflexivity. Qed.

Example str_of_int_samples :
  str_of_int 0 = py "0" /\ str_of_int (-1) = py "-1"
  /\ str_of_int 10000 = py "10000" /\ str_of_int 907 = py "907".
Proof. by vm_compute. Qed.

Lemma digits_go_chars fuel n acc :
  Forall (fun c => (48 <= c <= 57)%N) acc ->
  Forall (fun c => (48 <= c <= 57)%N) (digits_go fuel n acc).
Proof.
  revert n acc. induction fuel as [|fuel IH]; intros n acc Hacc; [done|].
  cbn [digits_go].
  assert (Forall (fun c => (48 <= c <= 57)%N) ((48 + n mod 10)%N :: acc)) as H.
  { constructor; [|done].
    pose proof (N.mod_upper_bound n 10 ltac:(done)).
    set (m := (n mod 10)%N) in *. clearbody m. lia. }
  destruct (n <? 10)%N; [done|by apply IH].
Qed.

Lemma str_of_int_no_newline z : 10%N ∉ str_of_int z.
Proof.
  unfold str_of_int.
  pose proof (digits_go_chars (S (N.to_nat (N.log2 (Z.abs_N z)))) (Z.abs_N z) []
                ltac:(constructor)) as H.
  rewrite Forall_forall in H.
  destruct (z <? 0).
  - intros [?|Hin]%elem_of_cons; [done|]. specialize (H _ Hin). lia.
  - intros Hin. specialize (H _ Hin). lia.
Qed.

Lemma digits_go_acc fuel n acc :
  digits_go fuel n acc = digits_go fuel n [] ++ acc.
Proof.
  revert n acc. induction fuel as [|fuel IH]; intros n acc; [done|].
  cbn [digits_go]. destruct (n <? 10)%N; [done|].
  rewrite (IH _ (_ :: acc)), (IH _ [_]), <- app_assoc. done.
Qed.

(** The digits printed for a natural number spell that number. *)
Lemma int_of_digits_go fuel n :
  (n < 2 ^ N.of_nat fuel)%N ->
  int_of_digits (digits_go fuel n []) = n.
Proof.
  revert n. induction fuel as [|fuel IH]; intros n Hn.
  - simpl in Hn. assert (n = 0%N) as -> by lia. done.
  - cbn [digits_go]. destruct (N.ltb_spec n 10).
    + unfold int_of_digits. cbn [fold_left]. rewrite N.mod_small by done. lia.
    + rewrite digits_go_acc. unfold int_of_digits. rewrite fold_left_app.
      fold (int_of_digits (digits_go fuel (n / 10) [])).
      rewrite IH.
      * cbn [fold_left]. pose proof (N.div_mod n 10 ltac:(done)).
        pose proof (N.mod_upper_bound n 10 ltac:(done)).
        set (m := (n mod 10)%N) in *. set (d := (n / 10)%N) in *.
        clearbody m d. lia.
      * rewrite Nat2N.inj_succ, N.pow_succ_r' in Hn.
        assert (n / 10 <= n / 2)%N.
        { apply N.div_le_compat_l. lia. }
        assert (n / 2 < 2 ^ N.of_nat fuel)%N; [|lia].
        apply N.Div0.div_lt_upper_bound. lia.
Qed.

Lemma str_of_int_reads_back z :
  0 <= z -> int_of_digits (str_of_int z) = Z.to_N z.
Proof.
  intros Hz. unfold str_of_int. destruct (Z.ltb_spec z 0); [lia|].
  rewrite int_of_digits_go; [lia|].
  destruct (Z.abs_N z) as [|p] eqn:Hn; [done|].
  pose proof (N.log2_spec (N.pos p) ltac:(done)) as [_ Hlog].
  rewrite Nat2N.inj_succ, N2Nat.id. lia.
Qed.

Lemma split_lines (lines : list str) (rest : str) :
  Forall (fun line => 10%N ∉ line) lines ->
  split nl (concat ((fun line => line ++ nl) <$> lines) ++ rest)
  = lines ++ split nl rest.
Proof.
  unfold split, nl. induction 1 as [|line lines Hl _ IH]; [done|].
  rewrite fmap_cons. cbn [concat]. rewrite <- !app_assoc.
  rewrite (split_go_char_cut 10%N [] line) by done.
  cbn [app]. by rewrite IH.
Qed.

(** X19: the trace can be read back from the file.  When neither the
    configurations nor the result text hold a newline, the lines of the
    text [save_output] writes are: the title, the rule and an empty
    line; the configurations, one per line and in order; an empty line,
    the rule, the result line and the step-count line. *)
Theorem save_output_lines configurations result :
  Forall (fun config => 10%N ∉ config) configurations ->
  10%N ∉ result ->
  split nl (save_output configurations result)
  = [py "CONFIGURACIONES DE LA MÁQUINA DE TURING"; rule; []]
    ++ configurations
    ++ [[]; rule; py "RESULTADO: " ++ result;
        py "Número de pasos: "
        ++ str_of_int (Z.of_nat (length configurations) - 1);
        []].
Proof.
  intros Hc Hr.
  set (count := str_of_int (Z.of_nat (length configurations) - 1)).
  set (lines := [py "CONFIGURACIONES DE LA MÁQUINA DE TURING"; rule; []]
                ++ configurations
                ++ [[]; rule; py "RESULTADO: " ++ result;
                    py "Número de pasos: " ++ count]).
  assert (save_output configurations result
          = concat ((fun line => line ++ nl) <$> lines) ++ []) as ->.
  { unfold save_output, save_writes, lines. fold count.
    rewrite app_nil_r, !fmap_app, !concat_app. cbn [fmap list_fmap concat].
    rewrite !app_nil_r, <- !app_assoc. reflexivity. }
  rewrite split_lines.
  - unfold lines. rewrite <- !app_assoc. reflexivity.
  - unfold lines. repeat first [apply Forall_app_2 | apply Forall_cons_2];
      try done; try apply Forall_nil_2.
    + by vm_compute; intros H%list_elem_of_In; vm_compute in H;
        decompose [or] H.
    + intros H%elem_of_replicate. by destruct H.
    + by intros H%elem_of_nil.
    + by intros H%elem_of_nil.
    + intros H%elem_of_replicate. by destruct H.
    + intros [H|H]%elem_of_app; [|done].
      apply list_elem_of_In in H. vm_compute in H. by decompose [or] H.
    + intros [H|H]%elem_of_app; [|by apply str_of_int_no_newline in H].
      apply list_elem_of_In in H. vm_compute in H. by decompose [or] H.
Qed.

Lemma save_output_lines_witness :
  split nl (save_output [py "q0⊔"; py "⊔qa⊔"] (py "ACEPTADA"))
  = [py "CONFIGURACIONES DE LA MÁQUINA DE TURING"; rule; []]
    ++ [py "q0⊔"; py "⊔qa⊔"]
    ++ [[]; rule; py "RESULTADO: " ++ py "ACEPTADA";
        py "Número de pasos: " ++ str_of_int (Z.of_nat 2 - 1);
        []].
Proof.
  apply (save_output_lines [py "q0⊔"; py "⊔qa⊔"] (py "ACEPTADA")).
  - repeat constructor; intros H%list_elem_of_In; vm_compute in H;
      decompose [or] H; done.
  - intros H%list_elem_of_In; vm_compute in H; decompose [or] H; done.
Defined.

(** X20: the loader keeps the keys of the transition dict distinct.
    Started on a machine whose dict has no doubled key (the new machine
    has none), it returns a machine whose dict has none either, so that
    the first entry the engine finds for a (state, symbol) pair is the
    only one. *)
Theorem load_keeps_keys_distinct M filename file :
  NoDup (delta M).*1 ->
  match load_from_file M filename file with
  | Returned (M', _) => NoDup (delta M').*1
  | Raised _ => True
  end.
Proof.
  intros Hnd. destruct file as [|message|raw]; [done|done|].
  unfold load_from_file.
  generalize (clean raw) as lines. generalize false as b. intros b lines.
  revert b M Hnd. induction lines as [|x lines IH]; intros b M Hnd;
    cbn [load_sections]; [done|].
  repeat match goal with
    | |- context [if ?c then _ else _] => destruct c
    end; try done; try (by apply IH).
  destruct (parse_transition (delta M) (strip x)) as [d|m] eqn:Hp; [|done].
  apply IH. simpl. unfold parse_transition in Hp.
  destruct (split _ (strip x)) as [|l1 [|l2 [|? ?]]]; try done.
  destruct (strip <$> split _ _) as [|x1 [|x2 [|? ?]]]; try done.
  destruct (strip <$> split _ _) as [|y1 [|y2 [|y3 [|? ?]]]]; try done.
  injection Hp as <-. clear -Hnd. revert Hnd.
  generalize (x1, x2) as k. generalize (y1, y2, y3) as v.
  generalize (delta M) as d. clear. intros d v k.
  induction d as [|[k' v'] d IH]; simpl.
  - intros _. apply NoDup_singleton.
  - destruct (decide (k = k')) as [->|Hne]; [done|].
    rewrite !fmap_cons. cbn [fst]. rewrite !NoDup_cons. intros [Hk' Hd].
    split; [|by apply IH].
    intros Hin. apply Hk'. clear -Hin Hne.
    induction d as [|[k'' v''] d IHd]; simpl in *.
    + apply list_elem_of_singleton in Hin. congruence.
    + destruct (decide (k = k'')) as [->|Hne'']; simpl in *.
      * apply elem_of_cons in Hin as [->|Hin]; [done|]. by right.
      * apply elem_of_cons in Hin as [->|Hin]; [left|right; by apply IHd].
Qed.

Lemma load_keeps_keys_distinct_witness :
  match load_from_file new_machine (py "m.txt") (Lines ends_in_one_file) with
  | Returned (M', _) => NoDup (delta M').*1
  | Raised _ => True
  end.
Proof.
  apply (load_keeps_keys_distinct new_machine (py "m.txt")).
  apply NoDup_nil_2.
Defined.

(** X22: the number of steps on the last line of the file.  For a run
    that ends with fewer than 100 steps, the last thing [save_output]
    writes is the line "Número de pasos: " followed by the step counter
    of the run, or by the step counter plus one when the run ended on a
    missing transition. *)
Theorem reported_step_count M input_string max_steps :
  exists k e r,
    exec M max_steps (start M input_string) k e r
    /\ run M input_string max_steps = Ok (configurations r, verdict M max_steps r)
    /\ (step r < 100 ->
        last (save_writes (configurations r)
                          (result_text (verdict M max_steps r)))
        = Some (py "Número de pasos: "
                ++ str_of_int (step r + match e with
                                         | Fallthrough => 0
                                         | Missing => 1
                                         end)
                ++ nl)).
Proof.
  destruct (run_state_exec M input_string max_steps) as (k & e & r & Hex & Hr).
  exists k, e, r. split; [done|]. split; [by apply run_of_run_state|].
  intros Hlt.
  pose proof (exec_step _ _ _ _ _ _ Hex) as Hs. simpl in Hs.
  destruct (exec_trace_length _ _ _ _ _ _ Hex) as [_ Heq]; [simpl; lia|].
  specialize (Heq Hlt).
  assert (length (configurations (start M input_string)) = 1%nat) as H1
    by (unfold start; cbn [configurations]; by rewrite capture_text).
  rewrite H1 in Heq. unfold save_writes.
  rewrite !last_app. cbn [last].
  do 4 f_equal. rewrite Heq. destruct e; lia.
Qed.
